(** * Static analysis scripts of the Compact reviewer

    A shallow embedding of the two analysis scripts
    [compact-reviewer/scripts/check-disclosure.py] and
    [plugins/compact-reviewer/scripts/analyze-complexity.py].

    A Python [str] is a list of code points.  What [re] and [str] ask of
    the Unicode database about a code point above 127 (is it alphanumeric,
    is it a decimal digit and of which value, is it a blank) is a parameter
    of the development, the class [Unicode]; below 128 the answers are
    written out.  Python's [re] patterns are embedded as values of a small
    regular-expression syntax and run by a backtracking matcher with the
    priorities of [re]: leftmost start, greedy repetition, alternatives
    from left to right.  Python integers are [Z].  An exception that no
    handler catches is [None].  A file is the text that reading it gives,
    and printing is taken to succeed. *)

From Stdlib Require Import String Ascii.
From Stdlib Require Import List NArith ZArith Lia Bool Arith PeanoNat FinFun
  DecimalString.
Import ListNotations.

Local Open Scope list_scope.

(** A character is its code point. *)
Definition char := N.

(** A Python [str]. *)
Definition str := list char.

(** The characters of the scripts' own literals are ASCII. *)
Definition chr (a : ascii) : char := N_of_ascii a.

Coercion chr : ascii >-> char.
Bind Scope char_scope with char.

Definition text (s : string) : str := map chr (list_ascii_of_string s).

(** String literals: [$"abc"] is the text [abc]. *)
Notation "$ s" := (text s) (at level 1, format "$ s").

(** What the Unicode database tells of a character, as far as [\w], [\d],
    [\s], [str.strip] and [int] look at it: alphabetic ([str.isalpha]), a
    decimal digit with its value ([str.isdecimal], [unicodedata.decimal]),
    numeric otherwise ([str.isdigit] or [str.isnumeric]), a blank
    ([str.isspace]), or none of these.  No blank is alphanumeric. *)
Inductive category : Type :=
| Alphabetic
| Decimal (value : N)
| Numeric
| Whitespace
| Other.

(** The database, asked about the characters above 127. *)
Class Unicode : Type := classify : char -> category.

(** A computation that may raise: [None] is an exception that ends it. *)
Definition bind {A B : Type} (x : option A) (f : A -> option B) : option B :=
  match x with
  | Some a => f a
  | None => None
  end.

Notation "x <- e ;; k" := (bind e (fun x => k))
  (at level 61, e at next level, right associativity).

(** [[f(x) for x in l]], ended by the first [f(x)] that raises. *)
Fixpoint traverse {A B : Type} (f : A -> option B) (l : list A)
    : option (list B) :=
  match l with
  | [] => Some []
  | x :: l' => y <- f x ;; ys <- traverse f l' ;; Some (y :: ys)
  end.

(** ** Characters and text primitives *)

Module Text.

Definition between (lo hi : N) (c : char) : bool :=
  ((lo <=? c) && (c <=? hi))%N.

(** The ASCII characters: the digits, the letters, and the blanks, which
    are the tab to the carriage return, the four separators 28 to 31 and
    the space. *)
Definition ascii_category (c : char) : category :=
  if between 48 57 c then Decimal (c - 48)
  else if between 65 90 c || between 97 122 c then Alphabetic
  else if between 9 13 c || between 28 32 c then Whitespace
  else Other.

Definition newline : char := 10%N.

(** [a == b] on text. *)
Fixpoint str_eqb (a b : str) : bool :=
  match a, b with
  | [], [] => true
  | x :: a', y :: b' => N.eqb x y && str_eqb a' b'
  | _, _ => false
  end.

(** [s.startswith(p)] *)
Fixpoint startswith (p s : str) : bool :=
  match p, s with
  | [], _ => true
  | x :: p', y :: s' => N.eqb x y && startswith p' s'
  | _ :: _, [] => false
  end.

(** [sub in s] *)
Fixpoint contains (sub s : str) : bool :=
  startswith sub s ||
  match s with
  | [] => false
  | _ :: s' => contains sub s'
  end.

(** [s.endswith(p)] *)
Definition endswith (p s : str) : bool :=
  startswith (rev p) (rev s).

(** [s.count(c)] for a one-character [c]. *)
Definition count_char (c : char) (s : str) : Z :=
  Z.of_nat (length (filter (N.eqb c) s)).

(** [s.split('\n')]: never empty, one more piece than there are newlines. *)
Fixpoint split_lines (s : str) : list str :=
  match s with
  | [] => [[]]
  | c :: s' =>
      if N.eqb c newline then [] :: split_lines s'
      else match split_lines s' with
           | [] => [[c]]
           | l :: ls => (c :: l) :: ls
           end
  end.

(** ['\n'.join(ls)] *)
Fixpoint join_lines (ls : list str) : str :=
  match ls with
  | [] => []
  | [l] => l
  | l :: ls' => l ++ newline :: join_lines ls'
  end.

(** [enumerate(ls, 1)] *)
Fixpoint enumerate_from (i : Z) (ls : list str) : list (Z * str) :=
  match ls with
  | [] => []
  | l :: ls' => (i, l) :: enumerate_from (i + 1)%Z ls'
  end.

(** [sys.int_info.default_max_str_digits]: the longest text of digits
    [int] converts. *)
Definition max_str_digits : nat := 4300.

Section WithUnicode.
Context {U : Unicode}.

Definition category_of (c : char) : category :=
  if (c <? 128)%N then ascii_category c else classify c.

(** [\d] and [str.isdecimal] *)
Definition is_digit (c : char) : bool :=
  match category_of c with
  | Decimal _ => true
  | _ => false
  end.

(** [\w]: [str.isalnum] or the underscore. *)
Definition is_word (c : char) : bool :=
  match category_of c with
  | Alphabetic | Decimal _ | Numeric => true
  | Whitespace | Other => N.eqb c 95
  end.

(** [\s] and [str.isspace] *)
Definition is_space (c : char) : bool :=
  match category_of c with
  | Whitespace => true
  | _ => false
  end.

Fixpoint lstrip (s : str) : str :=
  match s with
  | c :: s' => if is_space c then lstrip s' else s
  | [] => []
  end.

(** [s.strip()] *)
Definition strip (s : str) : str := rev (lstrip (rev (lstrip s))).

(** The value of a decimal digit. *)
Definition digit_value (c : char) : option Z :=
  match category_of c with
  | Decimal v => Some (Z.of_N v)
  | _ => None
  end.

(** The number the digits [d] write after those that gave [acc]. *)
Fixpoint digits_value (acc : Z) (d : str) : option Z :=
  match d with
  | [] => Some acc
  | c :: d' => v <- digit_value c ;; digits_value (10 * acc + v)%Z d'
  end.

(** [int(d)] for a text [d] of decimal digits, which is what the scripts
    pass: [ValueError] for the empty text, for a character that is no
    decimal digit, and for more than [max_str_digits] digits. *)
Definition int_of_digits (d : str) : option Z :=
  match d with
  | [] => None
  | _ :: _ =>
      if (max_str_digits <? length d)%nat then None else digits_value 0%Z d
  end.

End WithUnicode.

End Text.

(** ** Regular expressions *)

Module Re.
Import Text.

(** The fragment of Python's pattern syntax the two scripts use. *)
Inductive regex : Type :=
| Eps                              (* the empty pattern *)
| Cls (p : char -> bool)           (* one character of a class *)
| Seq (a b : regex)                (* ab *)
| Alt (a b : regex)                (* a|b, left first *)
| Star (a : regex)                 (* a*, greedy *)
| Grp (i : nat) (a : regex)        (* (a), capturing group number i *)
| Bnd.                             (* \b *)

(** ab? is [Alt b Eps], a+ is [Seq a (Star a)]. *)
Definition Opt (a : regex) : regex := Alt a Eps.
Definition Plus (a : regex) : regex := Seq a (Star a).

Definition Chr (c : char) : regex := Cls (N.eqb c).

(** A literal word of the pattern. *)
Fixpoint Lit (w : str) : regex :=
  match w with
  | [] => Eps
  | c :: w' => Seq (Chr c) (Lit w')
  end.

(** The concatenation of the parts of a pattern. *)
Fixpoint Cat (rs : list regex) : regex :=
  match rs with
  | [] => Eps
  | [r] => r
  | r :: rs' => Seq r (Cat rs')
  end.

(** [.] excludes the newline. *)
Definition Dot : regex := Cls (fun c => negb (N.eqb c newline)).
(** [[^c]] *)
Definition Not (c : char) : regex := Cls (fun x => negb (N.eqb x c)).

Definition captures := list (nat * str).

Section WithUnicode.
Context {U : Unicode}.

Definition Space : regex := Cls is_space.
Definition Word : regex := Cls is_word.
Definition Digit : regex := Cls is_digit.

(** Is the character before, or after, the position a word character;
    there is none at either end of the text. *)
Definition wordy (c : option char) : bool :=
  match c with
  | Some x => is_word x
  | None => false
  end.

(** The backtracking matcher, in continuation-passing style.  [prev] is the
    character before the position, [s] the text from the position on, [k]
    what remains to be matched.  A repetition stops on an iteration that
    consumes nothing, so the text's length bounds the iterations. *)
Fixpoint rmatch {A : Type} (r : regex) (prev : option char) (s : str)
    (caps : captures) (k : option char -> str -> captures -> option A)
    {struct r} : option A :=
  match r with
  | Eps => k prev s caps
  | Cls p =>
      match s with
      | c :: s' => if p c then k (Some c) s' caps else None
      | [] => None
      end
  | Seq a b =>
      rmatch a prev s caps (fun prev' s' caps' => rmatch b prev' s' caps' k)
  | Alt a b =>
      match rmatch a prev s caps k with
      | Some x => Some x
      | None => rmatch b prev s caps k
      end
  | Star a =>
      (fix loop (fuel : nat) (prev : option char) (s : str) (caps : captures)
         {struct fuel} : option A :=
         match fuel with
         | O => k prev s caps
         | S fuel' =>
             match rmatch a prev s caps
                     (fun prev' s' caps' =>
                        if length s' <? length s
                        then loop fuel' prev' s' caps' else None) with
             | Some x => Some x
             | None => k prev s caps
             end
         end) (length s) prev s caps
  | Grp i a =>
      rmatch a prev s caps
        (fun prev' s' caps' =>
           k prev' s' ((i, firstn (length s - length s') s) :: caps'))
  | Bnd =>
      if xorb (wordy prev) (wordy (hd_error s)) then k prev s caps else None
  end.

(** The loop of a repetition, by itself. *)
Section StarLoop.
Context {A : Type} (a : regex)
        (k : option char -> str -> captures -> option A).

Fixpoint star_loop (fuel : nat) (prev : option char) (s : str)
    (caps : captures) {struct fuel} : option A :=
  match fuel with
  | O => k prev s caps
  | S fuel' =>
      match rmatch a prev s caps
              (fun prev' s' caps' =>
                 if length s' <? length s
                 then star_loop fuel' prev' s' caps' else None) with
      | Some x => Some x
      | None => k prev s caps
      end
  end.

End StarLoop.

(** A match: the text it consumed, the text after it, and its groups. *)
Record rmatch_result : Type := MkMatch {
  m_text : str;
  m_rest : str;
  m_caps : captures
}.

(** [pattern.match] at a position. *)
Definition match_at (r : regex) (prev : option char) (s : str)
    : option rmatch_result :=
  rmatch r prev s []
    (fun _ s' caps => Some (MkMatch (firstn (length s - length s') s) s' caps)).

(** [match.group(i)]; an unset group is the empty text here. *)
Fixpoint group (i : nat) (caps : captures) : str :=
  match caps with
  | [] => []
  | (j, w) :: caps' => if Nat.eqb i j then w else group i caps'
  end.

(** [pattern.search]: the match at the leftmost position that has one,
    with the number of characters before it. *)
Fixpoint search_from (r : regex) (prev : option char) (s : str) (start : nat)
    : option (nat * rmatch_result) :=
  match match_at r prev s with
  | Some m => Some (start, m)
  | None =>
      match s with
      | [] => None
      | c :: s' => search_from r (Some c) s' (S start)
      end
  end.

Definition search (r : regex) (s : str) : option (nat * rmatch_result) :=
  search_from r None s 0.

Definition found (r : regex) (s : str) : bool :=
  match search r s with Some _ => true | None => false end.

Definition last_char (prev : option char) (w : str) : option char :=
  match rev w with
  | c :: _ => Some c
  | [] => prev
  end.

(** A match at a position that, when [must_advance] is set, has to consume
    some text: the empty match is refused and the alternatives are tried. *)
Definition match_from (r : regex) (must_advance : bool) (prev : option char)
    (s : str) : option rmatch_result :=
  rmatch r prev s []
    (fun _ s' caps =>
       if must_advance && negb (length s' <? length s) then None
       else Some (MkMatch (firstn (length s - length s') s) s' caps)).

(** [pattern.finditer]: the matches from left to right, none overlapping.
    After an empty match the scan stays at the position and asks for a
    match that advances; without one it moves one character on.  Two steps
    at most are spent at a position, which bounds the iterations. *)
Fixpoint finditer_from (fuel : nat) (r : regex) (must_advance : bool)
    (prev : option char) (s : str) : list rmatch_result :=
  match fuel with
  | O => []
  | S fuel' =>
      match match_from r must_advance prev s with
      | Some m =>
          match m_text m with
          | [] => m :: finditer_from fuel' r true prev s
          | _ :: _ =>
              m :: finditer_from fuel' r false (last_char prev (m_text m))
                                 (m_rest m)
          end
      | None =>
          match s with
          | [] => []
          | c :: s' => finditer_from fuel' r false (Some c) s'
          end
      end
  end.

Definition finditer (r : regex) (s : str) : list rmatch_result :=
  finditer_from (2 * length s + 2) r false None s.

(** [len(re.findall(r, s))] *)
Definition count_matches (r : regex) (s : str) : Z :=
  Z.of_nat (length (finditer r s)).

End WithUnicode.

End Re.

(** ** check-disclosure.py *)

Module Disclosure.
Import Text Re.

Record DisclosureIssue : Type := MkIssue {
  line : Z;
  description : str;
  severity : str   (* "critical", "high", "medium" *)
}.

(** What opening and reading the file gives: its text, [FileNotFoundError],
    or any other exception. *)
Inductive read_result : Type :=
| ReadOk (content : str)
| NotFound
| ReadFailed.

Definition file_system := str -> read_result.

(** [parse_compact_file]: the content and its lines, or the exit code. *)
Definition parse_compact_file (fs : file_system) (filepath : str)
    : (str * list str) + Z :=
  match fs filepath with
  | ReadOk content => inl (content, split_lines content)
  | NotFound => inr 2%Z
  | ReadFailed => inr 2%Z
  end.

Definition ledger_ops : list str :=
  [$"increment"; $"decrement"; $"write"; $"push"; $"set"; $"insert"].

Definition low_entropy_issue (witness_name type_str : str) (line_num : Z)
    : DisclosureIssue :=
  MkIssue line_num
    ($"Low-entropy witness '" ++ witness_name ++ $"' (" ++ type_str ++
     $") used in persistentHash() - vulnerable to brute-force (AV-03/AV-06)")
    $"critical".

Definition return_issue (witness_name : str) (line_num : Z) : DisclosureIssue :=
  MkIssue line_num
    ($"Witness '" ++ witness_name ++
     $"' may flow to public output without disclose()")
    $"high".

Definition ledger_issue (witness_name op : str) (line_num : Z)
    : DisclosureIssue :=
  MkIssue line_num
    ($"Witness '" ++ witness_name ++ $"' used in ledger " ++ op ++
     $"() - verify disclosure intent")
    $"medium".

Definition control_flow_issue (line_num : Z) : DisclosureIssue :=
  MkIssue line_num
    $"Control flow depends on witness value - potential timing leak (AV-01)"
    $"high".

(** [severity_order.get(x.severity, 3)] *)
Definition severity_order : list (str * Z) :=
  [($"critical", 0%Z); ($"high", 1%Z); ($"medium", 2%Z)].

Fixpoint dict_get (d : list (str * Z)) (key : str) (default : Z) : Z :=
  match d with
  | [] => default
  | (k, v) :: d' => if str_eqb k key then v else dict_get d' key default
  end.

Definition severity_key (x : DisclosureIssue) : Z :=
  dict_get severity_order (severity x) 3%Z.

(** [list.sort(key=...)]: a stable sort, here by insertion from the right;
    an element goes before the first one whose key is not smaller. *)
Fixpoint insert_by {A : Type} (key : A -> Z) (x : A) (l : list A) : list A :=
  match l with
  | [] => [x]
  | y :: l' =>
      if (key x <=? key y)%Z then x :: l else y :: insert_by key x l'
  end.

Fixpoint sort_by {A : Type} (key : A -> Z) (l : list A) : list A :=
  match l with
  | [] => []
  | x :: l' => insert_by key x (sort_by key l')
  end.

(** What a run leaves behind: the exit code and the issues in the order
    they are printed. *)
Record outcome : Type := MkOutcome {
  exit_code : Z;
  printed : list DisclosureIssue
}.

Section WithUnicode.
Context {U : Unicode}.

(** [witness\s+(\w+)\s*\([^)]*\)\s*:\s*(\w+(?:<[^>]+>)?)\s*;] *)
Definition witness_pattern : regex :=
  Cat [Lit $"witness"; Plus Space; Grp 1 (Plus Word); Star Space;
       Chr "("; Star (Not ")"); Chr ")"; Star Space; Chr ":"; Star Space;
       Grp 2 (Cat [Plus Word; Opt (Cat [Chr "<"; Plus (Not ">"); Chr ">"])]);
       Star Space; Chr ";"].

Definition find_witness_declarations (content : str) : list (str * Z * str) :=
  flat_map
    (fun il : Z * str =>
       match search witness_pattern (snd il) with
       | Some (_, m) => [(group 1 (m_caps m), fst il, group 2 (m_caps m))]
       | None => []
       end)
    (enumerate_from 1 (split_lines content)).

(** [Uint<[1-9]>], [Uint<1[0-9]>], [Boolean], [Enum<] *)
Definition low_entropy_patterns : list regex :=
  [Cat [Lit $"Uint<"; Cls (between 49 57); Chr ">"];
   Cat [Lit $"Uint<1"; Cls (between 48 57); Chr ">"];
   Lit $"Boolean";
   Lit $"Enum<"].

Definition is_low_entropy_type (type_str : str) : bool :=
  existsb (fun pattern => found pattern type_str) low_entropy_patterns.

(** [\b{witness_name}\s*\(\s*\)] *)
Definition usage_pattern (witness_name : str) : regex :=
  Cat [Bnd; Lit witness_name; Star Space; Chr "("; Star Space; Chr ")"].

Definition find_witness_usages (content witness_name : str) : list (Z * str) :=
  flat_map
    (fun il : Z * str =>
       if found (usage_pattern witness_name) (snd il)
       then [(fst il, strip (snd il))] else [])
    (enumerate_from 1 (split_lines content)).

(** The three checks of one usage line, in the order of the loop body. *)
Definition hash_check (witness_name type_str : str) (line_num : Z)
    (line_content : str) : list DisclosureIssue :=
  if contains $"persistentHash" line_content then
    if is_low_entropy_type type_str
    then [low_entropy_issue witness_name type_str line_num] else []
  else [].

Definition return_check (witness_name : str) (line_num : Z)
    (line_content : str) : list DisclosureIssue :=
  if contains $"return" line_content && negb (contains $"disclose" line_content)
  then
    if contains witness_name line_content
    then [return_issue witness_name line_num] else []
  else [].

Definition ledger_check (witness_name : str) (line_num : Z)
    (line_content : str) : list DisclosureIssue :=
  flat_map
    (fun op =>
       if contains ($"." ++ op ++ $"(") line_content then
         if contains witness_name line_content
            && negb (contains $"disclose" line_content)
         then [ledger_issue witness_name op line_num] else []
       else [])
    ledger_ops.

(** The body of the loop over the usages of one witness. *)
Definition usage_issues (witness_name type_str : str) (usage : Z * str)
    : list DisclosureIssue :=
  let line_num := fst usage in
  let line_content := snd usage in
  hash_check witness_name type_str line_num line_content
  ++ return_check witness_name line_num line_content
  ++ ledger_check witness_name line_num line_content.

(** The body of the loop over the witnesses. *)
Definition witness_issues (content : str) (w : str * Z * str)
    : list DisclosureIssue :=
  let '(witness_name, _, type_str) := w in
  flat_map (usage_issues witness_name type_str)
           (find_witness_usages content witness_name).

(** [if\s+.*\bget_\w+\s*\(\)] *)
Definition control_flow_pattern : regex :=
  Cat [Lit $"if"; Plus Space; Star Dot; Bnd; Lit $"get_"; Plus Word;
       Star Space; Lit $"()"].

(** The scan of every line for a branch on an accessor. *)
Definition control_flow_issues (lines : list str) : list DisclosureIssue :=
  flat_map
    (fun il : Z * str =>
       if found control_flow_pattern (snd il)
       then [control_flow_issue (fst il)] else [])
    (enumerate_from 1 lines).

Definition check_disclosure_violations (content : str) (lines : list str)
    : list DisclosureIssue :=
  flat_map (witness_issues content) (find_witness_declarations content)
  ++ control_flow_issues lines.

Definition main (argv : list str) (fs : file_system) : outcome :=
  if (length argv <? 2)%nat then MkOutcome 2 []
  else
    let filepath := nth 1 argv [] in
    if negb (endswith $".compact" filepath) then MkOutcome 2 []
    else
      match parse_compact_file fs filepath with
      | inr code => MkOutcome code []
      | inl (content, lines) =>
          let issues := check_disclosure_violations content lines in
          match issues with
          | [] => MkOutcome 0 []
          | _ :: _ => MkOutcome 1 (sort_by severity_key issues)
          end
      end.

End WithUnicode.

End Disclosure.

(** ** analyze-complexity.py *)

Module Complexity.
Import Text Re.

Local Open Scope Z_scope.

(** The table of costs. *)
Definition CONSTRAINT_COSTS : list (str * Z) :=
  [($"sha256", 25000);
   ($"persistentHash", 1000);
   ($"persistentCommit", 1000);
   ($"hash", 1000);
   ($"ecMul", 7500);
   ($"comparison_inequality", 254);
   ($"comparison_equality", 1);
   ($"merkle_hash_per_level", 1000);
   ($"map_membership", 254);
   ($"set_membership", 254);
   ($"list_access", 254);
   ($"addition", 0);
   ($"subtraction", 0);
   ($"multiplication", 1);
   ($"division", 1)].

(** [CONSTRAINT_COSTS[key]]; every key the script uses is in the table. *)
Fixpoint lookup (d : list (str * Z)) (key : str) : Z :=
  match d with
  | [] => 0
  | (k, v) :: d' => if str_eqb k key then v else lookup d' key
  end.

Definition cost_of (key : str) : Z := lookup CONSTRAINT_COSTS key.

Inductive read_result : Type :=
| ReadOk (content : str)
| NotFound
| ReadFailed.

Definition file_system := str -> read_result.

(** [parse_compact_file]: the content, or the exit code. *)
Definition parse_compact_file (fs : file_system) (filepath : str) : str + Z :=
  match fs filepath with
  | ReadOk content => inl content
  | NotFound => inr 2
  | ReadFailed => inr 1
  end.

(** [line.count('{') - line.count('}')] *)
Definition brace_balance (l : str) : Z := count_char "{" l - count_char "}" l.

(** The inner loop of [find_circuits]: the lines taken into the body while
    the count of open braces is positive, and the lines left. *)
Fixpoint take_body (lines : list str) (brace_count : Z)
    : list str * list str :=
  match lines with
  | [] => ([], [])
  | l :: lines' =>
      if 0 <? brace_count then
        let (body, rest) := take_body lines' (brace_count + brace_balance l) in
        (l :: body, rest)
      else ([], lines)
  end.

(** The counters of [count_operations], in the order of the dictionary. *)
Record OperationCounts : Type := MkOps {
  hash_operations : Z;
  sha256_operations : Z;
  merkle_proofs : Z;
  merkle_depth : Z;
  inequality_comparisons : Z;
  equality_comparisons : Z;
  loop_iterations : Z;
  ec_operations : Z;
  collection_accesses : Z
}.

(** A line of the breakdown, with the numbers it prints. *)
Inductive breakdown_line : Type :=
| HashLine (count cost : Z)
| Sha256Line (count cost : Z)
| EcLine (count cost : Z)
| MerkleLine (depth cost : Z)
| ComparisonLine (count cost : Z)
| CollectionLine (count cost : Z)
| LoopLine (iterations : Z).

(** One step of [estimate_constraints]: when the counter is positive, its
    cost joins the total and its line the breakdown. *)
Definition add_term (count cost : Z) (item : breakdown_line)
    (acc : Z * list breakdown_line) : Z * list breakdown_line :=
  if 0 <? count then (fst acc + cost, snd acc ++ [item]) else acc.

Definition estimate_constraints (ops : OperationCounts)
    : Z * list breakdown_line :=
  let acc := (0, []) in
  let acc :=
    let cost := hash_operations ops * cost_of $"persistentHash" in
    add_term (hash_operations ops) cost (HashLine (hash_operations ops) cost) acc in
  let acc :=
    let cost := sha256_operations ops * cost_of $"sha256" in
    add_term (sha256_operations ops) cost
             (Sha256Line (sha256_operations ops) cost) acc in
  let acc :=
    let cost := ec_operations ops * cost_of $"ecMul" in
    add_term (ec_operations ops) cost (EcLine (ec_operations ops) cost) acc in
  let acc :=
    let depth := if merkle_depth ops =? 0 then 20 else merkle_depth ops in
    let cost := merkle_proofs ops * depth * cost_of $"merkle_hash_per_level" in
    add_term (merkle_proofs ops) cost (MerkleLine depth cost) acc in
  let acc :=
    let cost := inequality_comparisons ops * cost_of $"comparison_inequality" in
    add_term (inequality_comparisons ops) cost
             (ComparisonLine (inequality_comparisons ops) cost) acc in
  let acc :=
    let cost := collection_accesses ops * cost_of $"map_membership" in
    add_term (collection_accesses ops) cost
             (CollectionLine (collection_accesses ops) cost) acc in
  if 1 <? loop_iterations ops
  then (fst acc, snd acc ++ [LoopLine (loop_iterations ops)])
  else acc.

Inductive suggestion : Type :=
| ReplaceSha256
| ReduceComparisons
| MoveLoopToWitness
| ShallowerMerkleTree (depth : Z)
| HashOffChain.

Definition suggest_optimizations (ops : OperationCounts) (circuit_body : str)
    : list suggestion :=
  (if 0 <? sha256_operations ops then [ReplaceSha256] else [])
  ++ (if 5 <? inequality_comparisons ops then [ReduceComparisons] else [])
  ++ (if 50 <? loop_iterations ops then [MoveLoopToWitness] else [])
  ++ (if 20 <? merkle_depth ops
      then [ShallowerMerkleTree (merkle_depth ops)] else [])
  ++ (if contains $"get_" circuit_body && (2 <? hash_operations ops)
      then [HashOffChain] else []).

Definition classify_complexity (total_constraints : Z) : str :=
  if total_constraints <? 1000 then $"Low"
  else if total_constraints <? 10000 then $"Medium"
  else if total_constraints <? 50000 then $"High"
  else $"Very High".

Record CircuitAnalysis : Type := MkAnalysis {
  name : str;
  line : Z;
  operations : OperationCounts;
  estimated_constraints : Z;
  breakdown : list breakdown_line;
  optimizations : list suggestion
}.

(** What a run leaves behind: the exit code, the analyses in the order they
    are printed, and the overall classification with its total. *)
Record outcome : Type := MkOutcome {
  exit_code : Z;
  analyses : list CircuitAnalysis;
  overall : option (str * Z)
}.

Section WithUnicode.
Context {U : Unicode}.

(** [(?:export\s+)?circuit\s+(\w+)\s*\([^)]*\)\s*:\s*[^\{]+\{] *)
Definition circuit_pattern : regex :=
  Cat [Opt (Cat [Lit $"export"; Plus Space]); Lit $"circuit"; Plus Space;
       Grp 1 (Plus Word); Star Space; Chr "("; Star (Not ")"); Chr ")";
       Star Space; Chr ":"; Star Space; Plus (Not "{"); Chr "{"].

(** The outer loop of [find_circuits]; [i] is the index of the first of
    [lines], and the number of lines bounds the iterations. *)
Fixpoint find_circuits_from (fuel : nat) (lines : list str) (i : Z)
    : list (str * Z * str) :=
  match fuel, lines with
  | S fuel', l :: lines' =>
      match search circuit_pattern l with
      | Some (start, m) =>
          let match_end := (start + length (m_text m))%nat in
          let brace_count := brace_balance l in
          let (body, rest) := take_body lines' brace_count in
          (group 1 (m_caps m), i + 1,
           join_lines (skipn (match_end - 1) l :: body))
          :: find_circuits_from fuel' rest (i + 1 + Z.of_nat (length body))
      | None => find_circuits_from fuel' lines' (i + 1)
      end
  | _, _ => []
  end.

Definition find_circuits (content : str) : list (str * Z * str) :=
  let lines := split_lines content in
  find_circuits_from (length lines) lines 0.

(** [\bname\s*\(] *)
Definition call_pattern (name : str) : regex :=
  Cat [Bnd; Lit name; Star Space; Chr "("].

(** [MerkleTree(?:Client)?<(\d+)>] *)
Definition merkle_pattern : regex :=
  Cat [Lit $"MerkleTree"; Opt (Lit $"Client"); Chr "<"; Grp 1 (Plus Digit);
       Chr ">"].

(** [[<>]=?] *)
Definition inequality_pattern : regex :=
  Cat [Cls (fun c => N.eqb c (chr "<") || N.eqb c (chr ">")); Opt (Chr "=")].

(** [==] *)
Definition equality_pattern : regex := Lit $"==".

(** [for\s+\w+\s+in\s+(\d+)\.\.(\d+)] *)
Definition loop_pattern : regex :=
  Cat [Lit $"for"; Plus Space; Plus Word; Plus Space; Lit $"in"; Plus Space;
       Grp 1 (Plus Digit); Lit $".."; Grp 2 (Plus Digit)].

(** [\[\w+\]] *)
Definition index_pattern : regex := Cat [Chr "["; Plus Word; Chr "]"].

(** [re.findall] of a pattern with one group: the texts of the group. *)
Definition merkle_matches (body : str) : list str :=
  map (fun m => group 1 (m_caps m)) (finditer merkle_pattern body).

(** [re.findall] of a pattern with two groups: the pairs of texts. *)
Definition loop_matches (body : str) : list (str * str) :=
  map (fun m => (group 1 (m_caps m), group 2 (m_caps m)))
      (finditer loop_pattern body).

(** [max(int(d) for d in ds)]; [max] of nothing raises as [int] does. *)
Definition max_depth (ds : list str) : option Z :=
  vs <- traverse int_of_digits ds ;;
  match vs with
  | [] => None
  | v :: vs' => Some (fold_left Z.max vs' v)
  end.

(** The loop over the matches of the loop pattern:
    [ops['loop_iterations'] += int(end) - int(start)]. *)
Fixpoint add_loops (iterations : Z) (matches : list (str * str)) : option Z :=
  match matches with
  | [] => Some iterations
  | (start, end_) :: matches' =>
      e <- int_of_digits end_ ;;
      s <- int_of_digits start ;;
      add_loops (iterations + (e - s)) matches'
  end.

(** [count_operations]: the counters, or the [ValueError] of an [int]. *)
Definition count_operations (body : str) : option OperationCounts :=
  let hash_ops :=
    0 + count_matches (call_pattern $"persistentHash") body
      + count_matches (call_pattern $"persistentCommit") body
      + count_matches (call_pattern $"hash") body in
  let sha := 0 + count_matches (call_pattern $"sha256") body in
  let ec := 0 + count_matches (call_pattern $"ecMul") body in
  let ms := merkle_matches body in
  depth <- match ms with
           | [] => Some 0
           | _ :: _ => max_depth ms
           end ;;
  let proofs := match ms with [] => 0 | _ :: _ => 0 + Z.of_nat (length ms) end in
  let ineq := 0 + count_matches inequality_pattern body in
  let eq := 0 + count_matches equality_pattern body in
  loops <- add_loops 0 (loop_matches body) ;;
  let coll := 0 + count_matches index_pattern body in
  Some (MkOps hash_ops sha proofs depth ineq eq loops ec coll).

(** The body of the loop over the circuits. *)
Definition analyze (c : str * Z * str) : option CircuitAnalysis :=
  let '(circuit_name, line_num, body) := c in
  ops <- count_operations body ;;
  let est := estimate_constraints ops in
  Some (MkAnalysis circuit_name line_num ops (fst est) (snd est)
                   (suggest_optimizations ops body)).

(** [main]; a [ValueError] out of the loop over the circuits is caught by
    nothing: the interpreter prints the traceback and exits with 1, before
    any analysis is printed. *)
Definition main (argv : list str) (fs : file_system) : outcome :=
  if (length argv <? 2)%nat then MkOutcome 1 [] None
  else
    let filepath := nth 1 argv [] in
    if negb (endswith $".compact" filepath) then MkOutcome 1 [] None
    else
      match parse_compact_file fs filepath with
      | inr code => MkOutcome code [] None
      | inl content =>
          match find_circuits content with
          | [] => MkOutcome 0 [] None
          | circuits =>
              match traverse analyze circuits with
              | None => MkOutcome 1 [] None
              | Some analyses =>
                  let total :=
                    fold_left (fun acc a => acc + estimated_constraints a)
                              analyses 0 in
                  MkOutcome 0 analyses
                            (Some (classify_complexity total, total))
              end
          end
      end.

End WithUnicode.

End Complexity.

(** * Notions of the statements *)

Section TextNotions.
Import Text.

(** [sub] occurs in [s]. *)
Definition occurs (sub s : str) : Prop :=
  exists pre post, s = pre ++ sub ++ post.

(** The line break between two lines of a file. *)
Definition nl : str := [newline].

(** [not l] *)
Definition is_nil {A : Type} (l : list A) : bool :=
  match l with [] => true | _ :: _ => false end.

(** [str(n)]: the decimal numeral of a number. *)
Definition decimal (n : nat) : str :=
  text (NilEmpty.string_of_uint (Nat.to_uint n)).

(** The line numbers go up strictly. *)
Fixpoint increasing (l : list Z) : Prop :=
  match l with
  | [] => True
  | x :: l' =>
      match l' with
      | [] => True
      | y :: _ => (x < y)%Z
      end /\ increasing l'
  end.

(** A text has more digits than [int] converts. *)
Definition too_long (d : str) : bool := (max_str_digits <? length d)%nat.

(** An excerpt of the database for the examples: the Latin-1 supplement
    and the Arabic-Indic digits; the other characters are left without a
    category. *)
Definition ucd_excerpt : Unicode :=
  fun c =>
    if N.eqb c 133 || N.eqb c 160 then Whitespace
    else if N.eqb c 170 || N.eqb c 181 || N.eqb c 186 || between 192 214 c
            || between 216 246 c || between 248 255 c then Alphabetic
    else if N.eqb c 178 || N.eqb c 179 || N.eqb c 185 || between 188 190 c
      then Numeric
    else if between 1632 1641 c then Decimal (c - 1632)
    else Other.

End TextNotions.

Section SortNotions.
Context {A : Type} (key : A -> Z).

(** The elements of one key, in their order. *)
Definition tier (k : Z) (l : list A) : list A :=
  filter (fun y => (key y =? k)%Z) l.

End SortNotions.

Section MatcherNotions.
Import Text Re.
Context {U : Unicode}.

(** The classes of a pattern made of single characters only. *)
Fixpoint classes (r : regex) : option (list (char -> bool)) :=
  match r with
  | Eps => Some []
  | Cls p => Some [p]
  | Seq a b =>
      match classes a, classes b with
      | Some x, Some y => Some (x ++ y)
      | _, _ => None
      end
  | _ => None
  end.

(** The text fits the classes one character after the other. *)
Fixpoint fits (ps : list (char -> bool)) (w : str) : bool :=
  match ps, w with
  | [], [] => true
  | p :: ps', x :: w' => p x && fits ps' w'
  | _, _ => false
  end.

(** The numbers of the groups of a pattern. *)
Fixpoint groups_of (r : regex) : list nat :=
  match r with
  | Eps | Cls _ | Bnd => []
  | Seq a b | Alt a b => groups_of a ++ groups_of b
  | Star a => groups_of a
  | Grp i a => i :: groups_of a
  end.

(** An identifier: one word character or more. *)
Definition is_identifier (w : str) : Prop :=
  w <> [] /\ forallb is_word w = true.

(** The pattern ends with the character [c]. *)
Inductive ends_in (c : char) : regex -> Prop :=
| ends_chr : ends_in c (Chr c)
| ends_seq (a b : regex) : ends_in c b -> ends_in c (Seq a b).

End MatcherNotions.

Section DisclosureNotions.
Import Text Re Disclosure.
Context {U : Unicode}.

(** The issue has this severity. *)
Definition has_severity (s : str) (x : DisclosureIssue) : bool :=
  str_eqb s (severity x).

(** The issue is neither critical, high nor medium. *)
Definition other_severity (x : DisclosureIssue) : bool :=
  negb (has_severity $"critical" x || has_severity $"high" x
        || has_severity $"medium" x).

(** The declaration of the example of a low-entropy witness, and the line
    that uses it. *)
Definition age_declaration : str := $"witness getAge(): Uint<8>;".

Definition age_use : str := $"let h = persistentHash(getAge());".

(** A line that triggers no rule beside them: it declares no witness, has
    no call of [getAge] and no branch on an accessor. *)
Definition quiet (l : str) : bool :=
  negb (found witness_pattern l)
  && negb (found (usage_pattern $"getAge") l)
  && negb (found control_flow_pattern l).

(** The two lines inside a contract. *)
Definition age_contract : str :=
  $"pragma language_version 0.16;" ++ nl
  ++ age_declaration ++ nl
  ++ nl
  ++ $"export ledger ages: Counter; // persistentHash(x), get_age" ++ nl
  ++ age_use ++ nl
  ++ $"export circuit register(): [] { ages.increment(1); }".

(** The issue is of medium severity. *)
Definition is_medium (x : DisclosureIssue) : bool :=
  str_eqb $"medium" (severity x).

(** The ledger operations whose call [.<op>(] is on the line. *)
Definition ops_called (line_content : str) : list str :=
  filter (fun op => contains ($"." ++ op ++ $"(") line_content) ledger_ops.

(** A usage line with a call of [set] and a call of [push]. *)
Definition two_ops_example : str :=
  $"witness getAge(): Uint<64>;" ++ nl
  ++ $"  store.set(getAge()); log.push(getAge());".

(** The classes of the spec: the signature is a bit-width integer type of
    width 1 to 19, the boolean type, or a tagged-enumeration type. *)
Definition structurally_low (type_str : str) : Prop :=
  (exists n, 1 <= n <= 19 /\ type_str = $"Uint<" ++ decimal n ++ $">")
  \/ type_str = $"Boolean"
  \/ (exists variants, type_str = $"Enum<" ++ variants).

(** What the classifier looks for: one of these anywhere in the
    signature. *)
Definition mentions_low (type_str : str) : Prop :=
  (exists n, 1 <= n <= 19 /\ occurs ($"Uint<" ++ decimal n ++ $">") type_str)
  \/ occurs $"Boolean" type_str
  \/ occurs $"Enum<" type_str.

(** The first two patterns of the classifier. *)
Definition uint_one_digit : regex :=
  Cat [Lit $"Uint<"; Cls (between 49 57); Chr ">"].

Definition uint_teen : regex :=
  Cat [Lit $"Uint<1"; Cls (between 48 57); Chr ">"].

(** The part of the declaration pattern after the name, and in it the
    part after the type. *)
Definition witness_tail : regex :=
  Cat [Star Space; Chr "("; Star (Not ")"); Chr ")"; Star Space; Chr ":";
       Star Space;
       Grp 2 (Cat [Plus Word; Opt (Cat [Chr "<"; Plus (Not ">"); Chr ">"])]);
       Star Space; Chr ";"].

Definition witness_end : regex := Cat [Star Space; Chr ";"].

End DisclosureNotions.

Section ComplexityNotions.
Import Text Re Complexity.
Context {U : Unicode}.
Local Open Scope Z_scope.

(** The counters a cost is charged for are not negative. *)
Definition counts_nonneg (ops : OperationCounts) : Prop :=
  0 <= hash_operations ops /\ 0 <= sha256_operations ops
  /\ 0 <= ec_operations ops /\ 0 <= merkle_proofs ops
  /\ 0 <= inequality_comparisons ops /\ 0 <= collection_accesses ops.

(** The depth the Merkle cost is charged at. *)
Definition charged_depth (ops : OperationCounts) : Z :=
  if merkle_depth ops =? 0 then 20 else merkle_depth ops.

(** The same counters with another sum of loop iterations and another
    count of equalities. *)
Definition with_loops_and_equalities (ops : OperationCounts) (loops eqs : Z)
    : OperationCounts :=
  MkOps (hash_operations ops) (sha256_operations ops) (merkle_proofs ops)
        (merkle_depth ops) (inequality_comparisons ops) eqs loops
        (ec_operations ops) (collection_accesses ops).

(** The text of a reference with a decimal depth. *)
Definition ref_text (client : bool) (d : str) : str :=
  $"MerkleTree" ++ (if client then $"Client" else []) ++ $"<" ++ d ++ $">".

(** A depth literal: one decimal digit or more. *)
Definition is_depth (d : str) : Prop := d <> [] /\ forallb is_digit d = true.

(** A reference of depth [d] starts the text. *)
Definition ref_at (s d : str) : Prop :=
  is_depth d /\ exists client rest, s = ref_text client d ++ rest.

(** [l] lists the depths of the references at all the positions of the
    text, from left to right. *)
Inductive refs_of : str -> list str -> Prop :=
| refs_end : refs_of [] []
| refs_here (c : char) (s d : str) (l : list str) :
    ref_at (c :: s) d -> refs_of s l -> refs_of (c :: s) (d :: l)
| refs_skip (c : char) (s : str) (l : list str) :
    (forall d, ~ ref_at (c :: s) d) -> refs_of s l -> refs_of (c :: s) l.

(** [<(\d+)>], the end of the pattern. *)
Definition depth_part : regex :=
  Cat [Chr "<"; Grp 1 (Plus Digit); Chr ">"].

(** Any character but the one a reference starts with. *)
Definition not_M (c : char) : Prop := c <> chr "M".

(** An angle bracket. *)
Definition bracket (c : char) : bool :=
  N.eqb c (chr "<") || N.eqb c (chr ">").

(** The line of the Merkle cost in the breakdown. *)
Definition merkle_line (ops : OperationCounts) : breakdown_line :=
  MerkleLine (charged_depth ops)
             (merkle_proofs ops * charged_depth ops * 1000).

(** The texts [count_operations] hands to [int]: the depths of the Merkle
    references, then the two bounds of each loop. *)
Definition literals (body : str) : list str :=
  merkle_matches body
  ++ flat_map (fun se : str * str => [snd se; fst se]) (loop_matches body).

(** The sum of the costs a breakdown shows. *)
Definition line_cost (b : breakdown_line) : Z :=
  match b with
  | HashLine _ cost | Sha256Line _ cost | EcLine _ cost | MerkleLine _ cost
  | ComparisonLine _ cost | CollectionLine _ cost => cost
  | LoopLine _ => 0
  end.

Definition breakdown_sum (bs : list breakdown_line) : Z :=
  fold_right (fun b acc => line_cost b + acc) 0 bs.

(** The rank of a complexity class, from low to very high. *)
Definition class_rank (c : str) : Z :=
  if str_eqb c $"Low" then 0
  else if str_eqb c $"Medium" then 1
  else if str_eqb c $"High" then 2
  else 3.

(** The running count of open braces stays positive along the lines. *)
Fixpoint stays_open (lines : list str) (brace_count : Z) : Prop :=
  match lines with
  | [] => True
  | l :: lines' =>
      0 < brace_count /\ stays_open lines' (brace_count + brace_balance l)
  end.

(** The braces the lines open, less those they close. *)
Definition total_balance (lines : list str) : Z :=
  fold_right (fun l acc => brace_balance l + acc) 0 lines.

(** The part of the circuit pattern after the name. *)
Definition circuit_tail : regex :=
  Cat [Star Space; Chr "("; Star (Not ")"); Chr ")"; Star Space; Chr ":";
       Star Space; Plus (Not "{"); Chr "{"].

(** The line a circuit starts on. *)
Definition start_line (c : str * Z * str) : Z := snd (fst c).

End ComplexityNotions.

#[local] Existing Instance ucd_excerpt.

(** * Properties *)

(** ** Text *)

Section TextFacts.
Import Text.
Context {U : Unicode}.

Lemma str_eqb_eq (a b : str) : str_eqb a b = true <-> a = b.
Proof.
  revert b; induction a as [|x a IH]; intros [|y b]; simpl;
    try (split; congruence).
  rewrite andb_true_iff, N.eqb_eq, IH. split.
  - intros [-> ->]; reflexivity.
  - intros H; injection H; auto.
Qed.

Lemma startswith_prefix (p s : str) :
  startswith p s = true <-> exists post, s = p ++ post.
Proof.
  revert s; induction p as [|x p IH]; intros s; simpl.
  - split; [exists s; reflexivity | reflexivity].
  - destruct s as [|y s].
    + split; [discriminate | intros [post H]; discriminate].
    + rewrite andb_true_iff, N.eqb_eq, IH. split.
      * intros [-> [post ->]]. exists post; reflexivity.
      * intros [post H]. injection H as -> ->. split; [reflexivity|].
        exists post; reflexivity.
Qed.

Lemma contains_occurs (sub s : str) : contains sub s = true <-> occurs sub s.
Proof.
  induction s as [|c s IH].
  - simpl. rewrite orb_false_r, startswith_prefix. split.
    + intros [post H]. exists [], post. exact H.
    + intros [pre [post H]]. destruct pre as [|x pre]; [|discriminate].
      exists post. exact H.
  - simpl. rewrite orb_true_iff, startswith_prefix, IH. split.
    + intros [[post H] | [pre [post H]]].
      * exists [], post. exact H.
      * exists (c :: pre), post. simpl. rewrite H. reflexivity.
    + intros [pre [post H]]. destruct pre as [|x pre].
      * left. exists post. exact H.
      * right. injection H as _ H. exists pre, post. exact H.
Qed.

(** Stripping leading blanks keeps an occurrence that starts with a
    character that is not a blank. *)
Lemma lstrip_occurs (c : char) (sub s : str) :
  is_space c = false -> occurs (c :: sub) s -> occurs (c :: sub) (lstrip s).
Proof.
  intros Hc [pre [post ->]].
  induction pre as [|x pre IH]; simpl.
  - rewrite Hc. exists [], post. reflexivity.
  - destruct (is_space x).
    + exact IH.
    + exists (x :: pre), post. reflexivity.
Qed.

Lemma occurs_rev (sub s : str) : occurs sub s -> occurs (rev sub) (rev s).
Proof.
  intros [pre [post ->]]. exists (rev post), (rev pre).
  rewrite !rev_app_distr, app_assoc. reflexivity.
Qed.

(** [strip] keeps an occurrence whose first and last characters are not
    blanks. *)
Lemma strip_occurs (sub s : str) (c d : char) (t u : str) :
  sub = c :: t -> rev sub = d :: u ->
  is_space c = false -> is_space d = false ->
  occurs sub s -> occurs sub (strip s).
Proof.
  intros Hs Hr Hc Hd H. unfold strip.
  rewrite <- (rev_involutive sub). apply occurs_rev.
  rewrite Hr. apply lstrip_occurs; [exact Hd|].
  rewrite <- Hr. apply occurs_rev.
  rewrite Hs. apply lstrip_occurs; [exact Hc|].
  rewrite <- Hs. exact H.
Qed.

End TextFacts.

(** ** The stable sort *)

Section SortFacts.
Import Disclosure.

Context {A : Type} (key : A -> Z).

(** An element finds its place after the strictly smaller keys and before
    the others. *)
Lemma insert_by_place (x : A) (l1 l2 : list A) :
  Forall (fun y => (key y < key x)%Z) l1 ->
  Forall (fun y => (key x <= key y)%Z) l2 ->
  insert_by key x (l1 ++ l2) = l1 ++ x :: l2.
Proof.
  intros H1 H2. induction H1 as [|y l1 Hy _ IH]; simpl.
  - destruct H2 as [|z l2 Hz _]; simpl; [reflexivity|].
    destruct (Z.leb_spec (key x) (key z)); [reflexivity | lia].
  - destruct (Z.leb_spec (key x) (key y)); [lia|].
    rewrite IH. reflexivity.
Qed.

Lemma tier_keys (k : Z) (l : list A) : Forall (fun y => key y = k) (tier key k l).
Proof.
  apply Forall_forall. intros y Hy. apply filter_In in Hy.
  destruct Hy as [_ Hy]. apply Z.eqb_eq. exact Hy.
Qed.

Lemma tier_cons (k : Z) (x : A) (l : list A) :
  tier key k (x :: l) = if (key x =? k)%Z then x :: tier key k l else tier key k l.
Proof. reflexivity. Qed.

(** With keys among 0, 1, 2 and 3 the sort lists the four tiers one after
    the other, each in its original order. *)
Lemma sort_by_tiers (l : list A) :
  Forall (fun y => (0 <= key y <= 3)%Z) l ->
  sort_by key l = tier key 0 l ++ tier key 1 l ++ tier key 2 l ++ tier key 3 l.
Proof.
  induction 1 as [|x l Hx _ IH]; [reflexivity|].
  simpl sort_by. rewrite IH. rewrite !tier_cons.
  pose proof (tier_keys 0 l) as T0. pose proof (tier_keys 1 l) as T1.
  pose proof (tier_keys 2 l) as T2. pose proof (tier_keys 3 l) as T3.
  assert (Hk : key x = 0%Z \/ key x = 1%Z \/ key x = 2%Z \/ key x = 3%Z) by lia.
  destruct Hk as [Hk | [Hk | [Hk | Hk]]]; rewrite Hk; simpl Z.eqb; cbv iota.
  - apply (insert_by_place x []); [constructor|].
    rewrite !Forall_app. repeat split;
      (eapply Forall_impl; [|eassumption]); simpl; intros; lia.
  - rewrite (insert_by_place x (tier key 0 l)); [reflexivity| |].
    + eapply Forall_impl; [|exact T0]. simpl; intros; lia.
    + rewrite !Forall_app. repeat split;
        (eapply Forall_impl; [|eassumption]); simpl; intros; lia.
  - rewrite !app_assoc. rewrite <- (app_assoc _ (tier key 2 l)).
    rewrite <- (app_assoc _ (x :: tier key 2 l)).
    apply insert_by_place.
    + rewrite !Forall_app. repeat split;
        (eapply Forall_impl; [|eassumption]); simpl; intros; lia.
    + rewrite !Forall_app. repeat split;
        (eapply Forall_impl; [|eassumption]); simpl; intros; lia.
  - rewrite !app_assoc. apply insert_by_place.
    + rewrite !Forall_app. repeat split;
        (eapply Forall_impl; [|eassumption]); simpl; intros; lia.
    + eapply Forall_impl; [|exact T3]. simpl; intros; lia.
Qed.

End SortFacts.

(** ** The reporter of the disclosure checker *)

Section Reporter.
Import Text Disclosure.
Context {U : Unicode}.

Lemma severity_key_spec (x : DisclosureIssue) :
  (severity_key x =? 0)%Z = has_severity $"critical" x
  /\ (severity_key x =? 1)%Z = has_severity $"high" x
  /\ (severity_key x =? 2)%Z = has_severity $"medium" x
  /\ (severity_key x =? 3)%Z = other_severity x.
Proof.
  unfold other_severity, has_severity, severity_key.
  destruct (str_eqb $"critical" (severity x)) eqn:E1.
  { apply str_eqb_eq in E1. rewrite <- E1. repeat split; reflexivity. }
  destruct (str_eqb $"high" (severity x)) eqn:E2.
  { apply str_eqb_eq in E2. rewrite <- E2. repeat split; reflexivity. }
  destruct (str_eqb $"medium" (severity x)) eqn:E3.
  { apply str_eqb_eq in E3. rewrite <- E3. repeat split; reflexivity. }
  cbv [severity_order dict_get]. rewrite E1, E2, E3.
  repeat split; reflexivity.
Qed.

Lemma severity_key_range (l : list DisclosureIssue) :
  Forall (fun y => (0 <= severity_key y <= 3)%Z) l.
Proof.
  apply Forall_forall. intros x _.
  unfold severity_key. cbv [severity_order dict_get].
  repeat match goal with
         | |- context [if ?b then _ else _] => destruct b
         end; lia.
Qed.

(** C8: the sort of the reporter puts every critical issue first, then
    every high one, then every medium one, then those of any other
    severity, and each of the four groups keeps the order the issues had in
    the list (the sort is total and stable). *)
Theorem C8_severity_sort_stable (issues : list DisclosureIssue) :
  sort_by severity_key issues
  = filter (has_severity $"critical") issues
    ++ filter (has_severity $"high") issues
    ++ filter (has_severity $"medium") issues
    ++ filter other_severity issues.
Proof.
  rewrite (sort_by_tiers severity_key issues (severity_key_range issues)).
  unfold tier.
  rewrite (filter_ext (fun y => (severity_key y =? 0)%Z) (has_severity $"critical"))
    by (intros x; apply (severity_key_spec x)).
  rewrite (filter_ext (fun y => (severity_key y =? 1)%Z) (has_severity $"high"))
    by (intros x; apply (severity_key_spec x)).
  rewrite (filter_ext (fun y => (severity_key y =? 2)%Z) (has_severity $"medium"))
    by (intros x; apply (severity_key_spec x)).
  rewrite (filter_ext (fun y => (severity_key y =? 3)%Z) other_severity)
    by (intros x; apply (severity_key_spec x)).
  reflexivity.
Qed.

(** The issues are printed in that order whenever there are any. *)
Lemma main_prints_sorted (argv : list str) (fs : file_system)
    (prog filepath : str) (content : str) :
  argv = [prog; filepath] ->
  endswith $".compact" filepath = true ->
  fs filepath = ReadOk content ->
  printed (main argv fs)
  = sort_by severity_key
      (check_disclosure_violations content (split_lines content)).
Proof.
  intros -> Hext Hfs. unfold main, parse_compact_file.
  change ((length [prog; filepath] <? 2)%nat) with false.
  change (nth 1 [prog; filepath] []) with filepath.
  rewrite Hext, Hfs. cbn [negb].
  destruct (check_disclosure_violations content (split_lines content));
    reflexivity.
Qed.

End Reporter.

(** ** The matcher *)

Section MatcherFacts.
Import Text Re.
Context {U : Unicode}.

Lemma last_char_nil (prev : option char) : last_char prev [] = prev.
Proof. reflexivity. Qed.

Lemma last_char_snoc (prev : option char) (w : str) (c : char) :
  last_char prev (w ++ [c]) = Some c.
Proof. unfold last_char. rewrite rev_app_distr. reflexivity. Qed.

Lemma last_char_cons (prev : option char) (c : char) (w : str) :
  last_char prev (c :: w) = last_char (Some c) w.
Proof.
  destruct w as [|x w'] using rev_ind; [reflexivity|].
  rewrite app_comm_cons, !last_char_snoc. reflexivity.
Qed.

Lemma last_char_app (prev : option char) (w1 w2 : str) :
  last_char prev (w1 ++ w2) = last_char (last_char prev w1) w2.
Proof.
  revert prev; induction w1 as [|c w1 IH]; intros prev; [reflexivity|].
  simpl app. rewrite !last_char_cons. apply IH.
Qed.

Lemma firstn_consumed (w rest : str) :
  firstn (length (w ++ rest) - length rest) (w ++ rest) = w.
Proof.
  rewrite length_app, Nat.add_sub.
  rewrite firstn_app, Nat.sub_diag, firstn_all. simpl. apply app_nil_r.
Qed.

Lemma fits_app (ps1 ps2 : list (char -> bool)) (w1 w2 : str) :
  fits ps1 w1 = true -> fits ps2 w2 = true ->
  fits (ps1 ++ ps2) (w1 ++ w2) = true.
Proof.
  revert w1; induction ps1 as [|p ps1 IH]; intros [|x w1]; simpl;
    try discriminate; auto.
  rewrite !andb_true_iff. intros [Hp H1] H2. split; auto.
Qed.

Lemma fits_app_inv (ps1 ps2 : list (char -> bool)) (w : str) :
  fits (ps1 ++ ps2) w = true ->
  exists w1 w2, w = w1 ++ w2 /\ fits ps1 w1 = true /\ fits ps2 w2 = true.
Proof.
  revert w; induction ps1 as [|p ps1 IH]; intros w H.
  - exists [], w. auto.
  - destruct w as [|x w]; [discriminate|]. simpl in H.
    apply andb_true_iff in H. destruct H as [Hp H].
    destruct (IH w H) as (w1 & w2 & -> & H1 & H2).
    exists (x :: w1), w2. simpl. rewrite Hp, H1. auto.
Qed.

Lemma fits_literal (w0 w : str) :
  fits (map N.eqb w0) w = true <-> w = w0.
Proof.
  revert w; induction w0 as [|c w0 IH]; intros [|x w]; simpl;
    try (split; congruence).
  rewrite andb_true_iff, N.eqb_eq, IH. split.
  - intros [-> ->]; reflexivity.
  - intros H; injection H; auto.
Qed.

Lemma classes_Lit (w : str) : classes (Lit w) = Some (map N.eqb w).
Proof.
  induction w as [|c w IH]; [reflexivity|]. simpl. rewrite IH. reflexivity.
Qed.

(** A pattern of single characters either fails or consumes a text that
    fits, and then goes on with what follows. *)
Lemma rmatch_classes_sound {A : Type} (r : regex)
    (ps : list (char -> bool)) :
  classes r = Some ps ->
  forall prev s caps (k : option char -> str -> captures -> option A) x,
    rmatch r prev s caps k = Some x ->
    exists w rest,
      s = w ++ rest /\ fits ps w = true
      /\ k (last_char prev w) rest caps = Some x.
Proof.
  revert ps; induction r as [|p|a IHa b IHb| | | |]; intros ps Hc;
    try discriminate; intros prev s caps k x H.
  - injection Hc as <-. exists [], s. auto.
  - injection Hc as <-. destruct s as [|c s]; [discriminate|]. simpl in H.
    destruct (p c) eqn:Hp; [|discriminate].
    exists [c], s. simpl. rewrite Hp. auto.
  - simpl in Hc. destruct (classes a) as [pa|]; [|discriminate].
    destruct (classes b) as [pb|]; [|discriminate]. injection Hc as <-.
    simpl in H.
    destruct (IHa pa eq_refl _ _ _ _ _ H) as (w1 & r1 & -> & F1 & H1).
    destruct (IHb pb eq_refl _ _ _ _ _ H1) as (w2 & r2 & -> & F2 & H2).
    exists (w1 ++ w2), r2. rewrite app_assoc, last_char_app.
    split; [reflexivity|]. split; [apply fits_app; assumption | exact H2].
Qed.

Lemma rmatch_classes_complete {A : Type} (r : regex)
    (ps : list (char -> bool)) :
  classes r = Some ps ->
  forall prev w rest caps (k : option char -> str -> captures -> option A),
    fits ps w = true ->
    rmatch r prev (w ++ rest) caps k = k (last_char prev w) rest caps.
Proof.
  revert ps; induction r as [|p|a IHa b IHb| | | |]; intros ps Hc;
    try discriminate; intros prev w rest caps k F.
  - injection Hc as <-. destruct w; [reflexivity | discriminate].
  - injection Hc as <-. destruct w as [|c [|d w]]; try discriminate.
    + simpl in F. rewrite andb_true_r in F. simpl. rewrite F. reflexivity.
    + simpl in F. rewrite andb_false_r in F. discriminate.
  - simpl in Hc. destruct (classes a) as [pa|]; [|discriminate].
    destruct (classes b) as [pb|]; [|discriminate]. injection Hc as <-.
    destruct (fits_app_inv _ _ _ F) as (w1 & w2 & -> & F1 & F2).
    simpl. rewrite <- app_assoc.
    rewrite (IHa pa eq_refl _ _ _ _ _ F1).
    rewrite (IHb pb eq_refl _ _ _ _ _ F2).
    rewrite last_char_app. reflexivity.
Qed.

(** A search succeeds exactly when the pattern matches at some position. *)
Lemma search_from_some (r : regex) (s : str) :
  forall prev start,
    search_from r prev s start <> None
    <-> exists pre suf,
          s = pre ++ suf /\ match_at r (last_char prev pre) suf <> None.
Proof.
  induction s as [|c s IH]; intros prev start; simpl.
  - destruct (match_at r prev []) eqn:E.
    + split; [|congruence]. intros _. exists [], [].
      split; [reflexivity | rewrite last_char_nil, E; discriminate].
    + split; [congruence|]. intros (pre & suf & Hs & H).
      symmetry in Hs. apply app_eq_nil in Hs. destruct Hs as [-> ->].
      rewrite last_char_nil in H. congruence.
  - destruct (match_at r prev (c :: s)) eqn:E.
    + split; [|congruence]. intros _. exists [], (c :: s).
      split; [reflexivity | rewrite last_char_nil, E; discriminate].
    + rewrite IH. split.
      * intros (pre & suf & -> & H). exists (c :: pre), suf.
        rewrite last_char_cons. auto.
      * intros (pre & suf & Hs & H). destruct pre as [|x pre].
        -- simpl in Hs. subst suf. rewrite last_char_nil in H. congruence.
        -- injection Hs as -> ->. exists pre, suf.
           rewrite last_char_cons in H. auto.
Qed.

Lemma found_iff (r : regex) (s : str) :
  found r s = true
  <-> exists pre suf,
        s = pre ++ suf /\ match_at r (last_char None pre) suf <> None.
Proof.
  unfold found, search. rewrite <- search_from_some with (start := 0).
  destruct (search_from r None s 0); split; congruence.
Qed.

(** For a pattern of single characters, a search finds the texts with a
    part that fits the classes. *)
Lemma found_classes (r : regex) (ps : list (char -> bool)) (s : str) :
  classes r = Some ps ->
  found r s = true
  <-> exists pre w post, s = pre ++ w ++ post /\ fits ps w = true.
Proof.
  intros Hc. rewrite found_iff. unfold match_at. split.
  - intros (pre & suf & -> & H).
    destruct (rmatch r (last_char None pre) suf [] _) as [m|] eqn:E;
      [|congruence].
    destruct (rmatch_classes_sound r ps Hc _ _ _ _ _ E)
      as (w & rest & -> & F & _).
    exists pre, w, rest. auto.
  - intros (pre & w & post & -> & F). exists pre, (w ++ post).
    split; [reflexivity|].
    rewrite (rmatch_classes_complete r ps Hc _ _ _ _ _ F). discriminate.
Qed.

(** *** Repetition of a class *)

Lemma rmatch_Star {A : Type} (a : regex) (prev : option char) (s : str)
    (caps : captures) (k : option char -> str -> captures -> option A) :
  rmatch (Star a) prev s caps k = star_loop a k (length s) prev s caps.
Proof. reflexivity. Qed.

Lemma rmatch_Seq {A : Type} (a b : regex) (prev : option char) (s : str)
    (caps : captures) (k : option char -> str -> captures -> option A) :
  rmatch (Seq a b) prev s caps k
  = rmatch a prev s caps (fun prev' s' caps' => rmatch b prev' s' caps' k).
Proof. reflexivity. Qed.

Lemma rmatch_Grp {A : Type} (i : nat) (a : regex) (prev : option char)
    (s : str) (caps : captures)
    (k : option char -> str -> captures -> option A) :
  rmatch (Grp i a) prev s caps k
  = rmatch a prev s caps
      (fun prev' s' caps' =>
         k prev' s' ((i, firstn (length s - length s') s) :: caps')).
Proof. reflexivity. Qed.

Lemma rmatch_Cls {A : Type} (p : char -> bool) (prev : option char)
    (s : str) (caps : captures)
    (k : option char -> str -> captures -> option A) :
  rmatch (Cls p) prev s caps k
  = match s with
    | c :: s' => if p c then k (Some c) s' caps else None
    | [] => None
    end.
Proof. reflexivity. Qed.

Lemma rmatch_Opt {A : Type} (a : regex) (prev : option char) (s : str)
    (caps : captures) (k : option char -> str -> captures -> option A) :
  rmatch (Opt a) prev s caps k
  = match rmatch a prev s caps k with
    | Some x => Some x
    | None => k prev s caps
    end.
Proof. reflexivity. Qed.

(** What a repetition of a class consumes is in the class. *)
Lemma star_cls_sound {A : Type} (p : char -> bool)
    (k : option char -> str -> captures -> option A) (caps : captures)
    (x : A) :
  forall fuel prev s,
    star_loop (Cls p) k fuel prev s caps = Some x ->
    exists d rest,
      s = d ++ rest /\ forallb p d = true
      /\ k (last_char prev d) rest caps = Some x.
Proof.
  induction fuel as [|fuel IH]; intros prev s H.
  - exists [], s. auto.
  - cbn [star_loop] in H. rewrite rmatch_Cls in H.
    destruct s as [|c s].
    + exists [], []. auto.
    + destruct (p c) eqn:Hp.
      * destruct (length s <? length (c :: s)).
        -- destruct (star_loop (Cls p) k fuel (Some c) s caps) as [y|] eqn:E.
           ++ injection H as <-. destruct (IH _ _ E) as (d & rest & -> & F & K).
              exists (c :: d), rest. rewrite last_char_cons. simpl.
              rewrite Hp. auto.
           ++ exists [], (c :: s). auto.
        -- exists [], (c :: s). auto.
      * exists [], (c :: s). auto.
Qed.

(** A repetition of a class takes all the characters of the class there
    are, when what follows cannot start with one of them. *)
Lemma star_cls_greedy {A : Type} (p : char -> bool)
    (k : option char -> str -> captures -> option A) (caps : captures)
    (rest : str) :
  (forall prev' y s', p y = true -> k prev' (y :: s') caps = None) ->
  (forall y rest', rest = y :: rest' -> p y = false) ->
  forall d prev,
    forallb p d = true ->
    star_loop (Cls p) k (length (d ++ rest)) prev (d ++ rest) caps
    = k (last_char prev d) rest caps.
Proof.
  intros Hk Hrest. induction d as [|c d IH]; intros prev Hd.
  - simpl app. rewrite last_char_nil. destruct rest as [|y rest'].
    + reflexivity.
    + cbn [length star_loop]. rewrite rmatch_Cls.
      rewrite (Hrest y rest' eq_refl). reflexivity.
  - simpl in Hd. apply andb_true_iff in Hd. destruct Hd as [Hc Hd].
    simpl app. cbn [length star_loop]. rewrite rmatch_Cls, Hc.
    assert (L : (length (d ++ rest) <? S (length (d ++ rest))) = true)
      by (apply Nat.ltb_lt; lia).
    rewrite L, (IH (Some c) Hd), last_char_cons.
    destruct (k (last_char (Some c) d) rest caps); [reflexivity|].
    apply Hk. exact Hc.
Qed.

(** *** What a match consumes and which groups it sets *)

Lemma group_app_notin (i : nat) (r1 r2 : list nat) :
  ~ In i (r1 ++ r2) -> ~ In i r1 /\ ~ In i r2.
Proof. intros H. split; intros X; apply H; apply in_or_app; auto. Qed.

(** A successful match splits the text into what it consumed and the rest
    handed to the continuation, and leaves alone the groups that are not
    its own. *)
Lemma rmatch_consumes {A : Type} (r : regex) :
  forall prev s caps (k : option char -> str -> captures -> option A) x,
    rmatch r prev s caps k = Some x ->
    exists w rest prev' caps',
      s = w ++ rest /\ k prev' rest caps' = Some x
      /\ forall i, ~ In i (groups_of r) -> group i caps' = group i caps.
Proof.
  induction r as [|p|a IHa b IHb|a IHa b IHb|a IHa|j a IHa|];
    intros prev s caps k x H.
  - exists [], s, prev, caps. auto.
  - rewrite rmatch_Cls in H. destruct s as [|c s]; [discriminate|].
    destruct (p c); [|discriminate].
    exists [c], s, (Some c), caps. auto.
  - rewrite rmatch_Seq in H.
    destruct (IHa _ _ _ _ _ H) as (w1 & r1 & p1 & c1 & -> & H1 & G1).
    destruct (IHb _ _ _ _ _ H1) as (w2 & r2 & p2 & c2 & -> & H2 & G2).
    exists (w1 ++ w2), r2, p2, c2. rewrite app_assoc.
    split; [reflexivity|]. split; [exact H2|].
    intros i Hi. simpl in Hi. apply group_app_notin in Hi.
    destruct Hi as [Ha Hb]. rewrite (G2 i Hb). apply G1. exact Ha.
  - cbn [rmatch] in H.
    destruct (rmatch a prev s caps k) as [y|] eqn:E.
    + injection H as <-.
      destruct (IHa _ _ _ _ _ E) as (w & r & p & c & -> & H1 & G1).
      exists w, r, p, c. split; [reflexivity|]. split; [exact H1|].
      intros i Hi. simpl in Hi. apply group_app_notin in Hi. apply G1, Hi.
    + destruct (IHb _ _ _ _ _ H) as (w & r & p & c & -> & H1 & G1).
      exists w, r, p, c. split; [reflexivity|]. split; [exact H1|].
      intros i Hi. simpl in Hi. apply group_app_notin in Hi. apply G1, Hi.
  - rewrite rmatch_Star in H.
    assert (L : forall fuel prev s caps,
               star_loop a k fuel prev s caps = Some x ->
               exists w rest prev' caps',
                 s = w ++ rest /\ k prev' rest caps' = Some x
                 /\ forall i, ~ In i (groups_of (Star a)) ->
                              group i caps' = group i caps).
    { clear prev s caps H.
      induction fuel as [|fuel IHf]; intros prev s caps H.
      - exists [], s, prev, caps. auto.
      - cbn [star_loop] in H.
        match type of H with
        | match ?t with _ => _ end = _ => destruct t as [y|] eqn:E
        end.
        + injection H as <-.
          destruct (IHa _ _ _ _ _ E) as (w & r & p & c & -> & H1 & G1).
          destruct (length r <? length (w ++ r)); [|discriminate].
          destruct (IHf _ _ _ H1) as (w2 & r2 & p2 & c2 & -> & H2 & G2).
          exists (w ++ w2), r2, p2, c2. rewrite app_assoc.
          split; [reflexivity|]. split; [exact H2|].
          intros i Hi. rewrite (G2 i Hi). apply G1. exact Hi.
        + exists [], s, prev, caps. auto. }
    exact (L _ _ _ _ H).
  - rewrite rmatch_Grp in H.
    destruct (IHa _ _ _ _ _ H) as (w & r & p & c & -> & H1 & G1).
    exists w, r, p, ((j, firstn (length (w ++ r) - length r) (w ++ r)) :: c).
    split; [reflexivity|]. split; [exact H1|].
    intros i Hi. simpl in Hi. cbn [group].
    destruct (Nat.eqb_spec i j) as [->|Hne]; [exfalso; apply Hi; auto|].
    apply G1. intros X. apply Hi. auto.
  - cbn [rmatch] in H.
    destruct (xorb (wordy prev) (wordy (hd_error s))); [|discriminate].
    exists [], s, prev, caps. auto.
Qed.

Lemma match_at_splits (r : regex) (prev : option char) (s : str)
    (m : rmatch_result) :
  match_at r prev s = Some m -> s = m_text m ++ m_rest m.
Proof.
  unfold match_at. intros H. apply rmatch_consumes in H.
  destruct H as (w & rest & p & c & -> & H & _).
  rewrite firstn_consumed in H. injection H as <-. reflexivity.
Qed.

(** A search returns a match at the position it reports. *)
Lemma search_from_sound (r : regex) (s : str) :
  forall prev start n m,
    search_from r prev s start = Some (n, m) ->
    exists pre,
      s = pre ++ m_text m ++ m_rest m /\ n = (start + length pre)%nat
      /\ match_at r (last_char prev pre) (m_text m ++ m_rest m) = Some m.
Proof.
  induction s as [|c s IH]; intros prev start n m H; cbn [search_from] in H.
  - destruct (match_at r prev []) as [m0|] eqn:E; [|discriminate].
    injection H as <- <-. exists [].
    rewrite <- (match_at_splits _ _ _ _ E), last_char_nil.
    split; [reflexivity|]. split; [simpl; lia | exact E].
  - destruct (match_at r prev (c :: s)) as [m0|] eqn:E.
    + injection H as <- <-. exists [].
      rewrite <- (match_at_splits _ _ _ _ E), last_char_nil.
      split; [reflexivity|]. split; [simpl; lia | exact E].
    + destruct (IH _ _ _ _ H) as (pre & -> & -> & M).
      exists (c :: pre). rewrite last_char_cons.
      split; [reflexivity|]. split; [simpl; lia | exact M].
Qed.

(** One character of a class or more. *)
Lemma plus_cls_sound {A : Type} (p : char -> bool) (prev : option char)
    (s : str) (caps : captures)
    (k : option char -> str -> captures -> option A) (x : A) :
  rmatch (Plus (Cls p)) prev s caps k = Some x ->
  exists w rest,
    w <> [] /\ forallb p w = true /\ s = w ++ rest
    /\ k (last_char prev w) rest caps = Some x.
Proof.
  unfold Plus. rewrite rmatch_Seq, rmatch_Cls.
  destruct s as [|c s]; [discriminate|].
  destruct (p c) eqn:Hc; [|discriminate].
  rewrite rmatch_Star. intros H. apply star_cls_sound in H.
  destruct H as (d & rest & -> & Hd & H).
  exists (c :: d), rest. split; [discriminate|].
  split; [simpl; rewrite Hc; exact Hd|].
  split; [reflexivity|]. rewrite last_char_cons. exact H.
Qed.

Lemma literal_sound {A : Type} (w0 : str) (prev : option char) (s : str)
    (caps : captures) (k : option char -> str -> captures -> option A)
    (x : A) :
  rmatch (Lit w0) prev s caps k = Some x ->
  exists rest, s = w0 ++ rest /\ k (last_char prev w0) rest caps = Some x.
Proof.
  intros H.
  destruct (rmatch_classes_sound (Lit w0) _ (classes_Lit w0) _ _ _ _ _ H)
    as (w & rest & -> & F & K).
  apply fits_literal in F. subst w. exists rest. auto.
Qed.

Lemma literal_complete {A : Type} (w0 : str) (prev : option char)
    (rest : str) (caps : captures)
    (k : option char -> str -> captures -> option A) :
  rmatch (Lit w0) prev (w0 ++ rest) caps k = k (last_char prev w0) rest caps.
Proof.
  apply (rmatch_classes_complete (Lit w0) _ (classes_Lit w0)).
  apply fits_literal. reflexivity.
Qed.

Lemma match_from_free (r : regex) (prev : option char) (s : str) :
  match_from r false prev s = match_at r prev s.
Proof. reflexivity. Qed.

End MatcherFacts.

(** ** Characters *)

Section CharFacts.
Import Text.
Context {U : Unicode}.

Lemma word_not_space (c : char) : is_word c = true -> is_space c = false.
Proof.
  unfold is_word, is_space.
  destruct (category_of c) eqn:E; try reflexivity.
  intros H. apply N.eqb_eq in H. subst c. discriminate E.
Qed.

Lemma digit_is_word (c : char) : is_digit c = true -> is_word c = true.
Proof.
  unfold is_digit, is_word. destruct (category_of c); congruence.
Qed.

Lemma between_spec (lo hi : N) (c : char) :
  between lo hi c = true <-> (lo <= c <= hi)%N.
Proof.
  unfold between. rewrite andb_true_iff, !N.leb_le. tauto.
Qed.

(** Below 128 the category is the one of the table. *)
Lemma category_of_ascii (c : char) :
  (c < 128)%N -> category_of c = ascii_category c.
Proof.
  intros H. unfold category_of. apply N.ltb_lt in H. rewrite H. reflexivity.
Qed.

(** The digits [0] to [9] are decimal digits; a decimal digit below 128 is
    one of them. *)
Lemma ascii_digit (c : char) : between 48 57 c = true -> is_digit c = true.
Proof.
  intros H. unfold is_digit. rewrite category_of_ascii.
  - unfold ascii_category. rewrite H. reflexivity.
  - apply between_spec in H. lia.
Qed.

Lemma digit_below_128 (c : char) :
  (c < 128)%N -> is_digit c = true -> between 48 57 c = true.
Proof.
  intros Hc. unfold is_digit. rewrite (category_of_ascii c Hc).
  unfold ascii_category. destruct (between 48 57 c); [reflexivity|].
  destruct (between 65 90 c || between 97 122 c); [discriminate|].
  destruct (between 9 13 c || between 28 32 c); discriminate.
Qed.

End CharFacts.

(** ** More on the matcher *)

Section MatcherTracks.
Import Text Re.
Context {U : Unicode}.

(** A successful match hands to the continuation the last character it
    consumed as the character before the position. *)
Lemma rmatch_tracks {A : Type} (r : regex) :
  forall prev s caps (k : option char -> str -> captures -> option A) x,
    rmatch r prev s caps k = Some x ->
    exists w rest caps',
      s = w ++ rest /\ k (last_char prev w) rest caps' = Some x.
Proof.
  induction r as [|p|a IHa b IHb|a IHa b IHb|a IHa|j a IHa|];
    intros prev s caps k x H.
  - exists [], s, caps. auto.
  - rewrite rmatch_Cls in H. destruct s as [|c s]; [discriminate|].
    destruct (p c); [|discriminate].
    exists [c], s, caps. auto.
  - rewrite rmatch_Seq in H.
    destruct (IHa _ _ _ _ _ H) as (w1 & r1 & c1 & -> & H1).
    destruct (IHb _ _ _ _ _ H1) as (w2 & r2 & c2 & -> & H2).
    exists (w1 ++ w2), r2, c2. rewrite app_assoc, last_char_app. auto.
  - cbn [rmatch] in H.
    destruct (rmatch a prev s caps k) as [y|] eqn:E.
    + injection H as <-. exact (IHa _ _ _ _ _ E).
    + exact (IHb _ _ _ _ _ H).
  - rewrite rmatch_Star in H.
    assert (L : forall fuel prev s caps,
               star_loop a k fuel prev s caps = Some x ->
               exists w rest caps',
                 s = w ++ rest /\ k (last_char prev w) rest caps' = Some x).
    { clear prev s caps H.
      induction fuel as [|fuel IHf]; intros prev s caps H.
      - exists [], s, caps. auto.
      - cbn [star_loop] in H.
        match type of H with
        | match ?t with _ => _ end = _ => destruct t as [y|] eqn:E
        end.
        + injection H as <-.
          destruct (IHa _ _ _ _ _ E) as (w & r & c & -> & H1).
          destruct (length r <? length (w ++ r)); [|discriminate].
          destruct (IHf _ _ _ H1) as (w2 & r2 & c2 & -> & H2).
          exists (w ++ w2), r2, c2. rewrite app_assoc, last_char_app. auto.
        + exists [], s, caps. auto. }
    exact (L _ _ _ _ H).
  - rewrite rmatch_Grp in H.
    destruct (IHa _ _ _ _ _ H) as (w & r & c & -> & H1).
    eexists w, r, _. split; [reflexivity | exact H1].
  - cbn [rmatch] in H.
    destruct (xorb (wordy prev) (wordy (hd_error s))); [|discriminate].
    exists [], s, caps. auto.
Qed.

(** Every match of a scan is a match of the pattern at some position. *)
Lemma finditer_from_sound (r : regex) (m : rmatch_result) (fuel : nat) :
  forall adv prev s,
    In m (finditer_from fuel r adv prev s) ->
    exists adv' prev' s', match_from r adv' prev' s' = Some m.
Proof.
  induction fuel as [|fuel IH]; intros adv prev s H; [destruct H|].
  cbn [finditer_from] in H.
  destruct (match_from r adv prev s) as [m0|] eqn:E.
  - destruct (m_text m0).
    + destruct H as [<- | H]; [eauto | eapply IH; exact H].
    + destruct H as [<- | H]; [eauto | eapply IH; exact H].
  - destruct s as [|c s]; [destruct H|]. eapply IH. exact H.
Qed.

(** The groups of a match at a position are those the pattern hands to
    its continuation. *)
Lemma match_from_caps (r : regex) (adv : bool) (prev : option char)
    (s : str) (m : rmatch_result) :
  match_from r adv prev s = Some m ->
  exists k : option char -> str -> captures -> option rmatch_result,
    rmatch r prev s [] k = Some m
    /\ forall p s' caps x, k p s' caps = Some x -> m_caps x = caps.
Proof.
  unfold match_from. intros H. eexists. split; [exact H|].
  intros p s' caps x. cbv beta.
  destruct (adv && negb (length s' <? length s)); [discriminate|].
  intros E. injection E as <-. reflexivity.
Qed.

End MatcherTracks.

(** ** The entropy classifier *)

Section Entropy.
Import Text Re Disclosure.
Context {U : Unicode}.

Lemma digit_1_9 (d : char) :
  between 49 57 d = true -> exists n, 1 <= n <= 9 /\ decimal n = [d].
Proof.
  intros H. apply between_spec in H.
  assert (C : (d = 49 \/ d = 50 \/ d = 51 \/ d = 52 \/ d = 53 \/ d = 54
               \/ d = 55 \/ d = 56 \/ d = 57)%N) by lia.
  destruct C as [-> | [-> | [-> | [-> | [-> | [-> | [-> | [-> | ->]]]]]]]];
    [exists 1 | exists 2 | exists 3 | exists 4 | exists 5 | exists 6
     | exists 7 | exists 8 | exists 9]; (split; [lia | reflexivity]).
Qed.

Lemma digit_10_19 (d : char) :
  between 48 57 d = true ->
  exists n, 10 <= n <= 19 /\ decimal n = [chr "1"; d].
Proof.
  intros H. apply between_spec in H.
  assert (C : (d = 48 \/ d = 49 \/ d = 50 \/ d = 51 \/ d = 52 \/ d = 53
               \/ d = 54 \/ d = 55 \/ d = 56 \/ d = 57)%N) by lia.
  destruct C
    as [-> | [-> | [-> | [-> | [-> | [-> | [-> | [-> | [-> | ->]]]]]]]]];
    [exists 10 | exists 11 | exists 12 | exists 13 | exists 14 | exists 15
     | exists 16 | exists 17 | exists 18 | exists 19];
    (split; [lia | reflexivity]).
Qed.

Lemma found_literal (w0 s : str) : found (Lit w0) s = true <-> occurs w0 s.
Proof.
  rewrite (found_classes (Lit w0) _ s (classes_Lit w0)). unfold occurs. split.
  - intros (pre & w & post & -> & F). apply fits_literal in F. subst w.
    exists pre, post. reflexivity.
  - intros (pre & post & ->). exists pre, w0, post.
    split; [reflexivity | apply fits_literal; reflexivity].
Qed.

(** A literal, one character of a class, a closing character. *)
Lemma found_literal_class (w0 : str) (p : char -> bool) (c : char)
    (s : str) :
  found (Cat [Lit w0; Cls p; Chr c]) s = true
  <-> exists d, p d = true /\ occurs (w0 ++ [d] ++ [c]) s.
Proof.
  assert (Hc : classes (Cat [Lit w0; Cls p; Chr c])
               = Some (map N.eqb w0 ++ [p] ++ map N.eqb [c])).
  { simpl. rewrite classes_Lit. reflexivity. }
  rewrite (found_classes _ _ s Hc). unfold occurs. split.
  - intros (pre & w & post & -> & F).
    destruct (fits_app_inv _ _ _ F) as (w1 & w2 & -> & F1 & F2).
    apply fits_literal in F1. subst w1.
    destruct w2 as [|d w2]; [discriminate|]. simpl in F2.
    apply andb_true_iff in F2. destruct F2 as [Hp F2].
    change (fits (map N.eqb [c]) w2 = true) in F2.
    apply fits_literal in F2. subst w2.
    exists d. split; [exact Hp|]. exists pre, post. reflexivity.
  - intros (d & Hp & pre & post & ->). exists pre, (w0 ++ [d] ++ [c]), post.
    split; [reflexivity|]. apply fits_app.
    + apply fits_literal. reflexivity.
    + simpl. rewrite Hp, N.eqb_refl. reflexivity.
Qed.

Lemma is_low_entropy_type_unfold (type_str : str) :
  is_low_entropy_type type_str
  = found uint_one_digit type_str || found uint_teen type_str
    || found (Lit $"Boolean") type_str || found (Lit $"Enum<") type_str.
Proof.
  unfold is_low_entropy_type, low_entropy_patterns. cbn [existsb].
  rewrite orb_false_r, !orb_assoc. reflexivity.
Qed.

Lemma uint_width_found (n : nat) (type_str : str) :
  1 <= n <= 19 -> occurs ($"Uint<" ++ decimal n ++ $">") type_str ->
  found uint_one_digit type_str || found uint_teen type_str = true.
Proof.
  intros Hn Ho. apply orb_true_iff.
  assert (Hcases : (1 <= n <= 9) \/ (10 <= n <= 19)) by lia.
  destruct Hcases as [H | H].
  - left. apply found_literal_class.
    assert (E : exists d, between 49 57 d = true /\ decimal n = [d]).
    { do 10 (destruct n as [|n]; [try lia; eexists; refine (conj _ eq_refl); reflexivity|]).
      lia. }
    destruct E as (d & Hd & E). exists d. split; [exact Hd|].
    rewrite E in Ho. exact Ho.
  - right. apply found_literal_class.
    assert (E : exists d, between 48 57 d = true
                          /\ decimal n = [chr "1"; d]).
    { do 20 (destruct n as [|n]; [try lia; eexists; refine (conj _ eq_refl); reflexivity|]).
      lia. }
    destruct E as (d & Hd & E). exists d. split; [exact Hd|].
    rewrite E in Ho. exact Ho.
Qed.

(** C4, as the code has it: the classifier answers low exactly when the
    signature contains, anywhere, [Uint<w>] for a width w from 1 to 19,
    the word [Boolean], or [Enum<]; otherwise normal.  [Uint<20>] is
    normal and [Uint<19>] is low. *)
Theorem C4_low_entropy_by_containment (type_str : str) :
  (is_low_entropy_type type_str = true <-> mentions_low type_str)
  /\ is_low_entropy_type $"Uint<20>" = false
  /\ is_low_entropy_type $"Uint<19>" = true.
Proof.
  split; [|split; reflexivity].
  rewrite is_low_entropy_type_unfold, !orb_true_iff.
  unfold mentions_low. split.
  - intros [[[H | H] | H] | H].
    + apply found_literal_class in H. destruct H as (d & Hd & Ho).
      destruct (digit_1_9 d Hd) as (n & Hn & E). left. exists n.
      split; [lia|]. rewrite E. exact Ho.
    + apply found_literal_class in H. destruct H as (d & Hd & Ho).
      destruct (digit_10_19 d Hd) as (n & Hn & E). left. exists n.
      split; [lia|]. rewrite E. exact Ho.
    + right; left. apply found_literal. exact H.
    + right; right. apply found_literal. exact H.
  - intros [(n & Hn & Ho) | [H | H]].
    + left; left. apply orb_true_iff. eapply uint_width_found; eassumption.
    + left; right. apply found_literal. exact H.
    + right. apply found_literal. exact H.
Qed.

(** *** The classifier on parts and on widths *)

Lemma found_in_context (r : regex) (ps : list (char -> bool))
    (pre t post : str) :
  classes r = Some ps ->
  found r t = true -> found r (pre ++ t ++ post) = true.
Proof.
  intros Hc H. apply (found_classes r ps _ Hc) in H.
  destruct H as (a & w & b & -> & F).
  apply (found_classes r ps _ Hc). exists (pre ++ a), w, (b ++ post).
  split; [|exact F]. rewrite <- !app_assoc. reflexivity.
Qed.

(** X17: a signature that has a low-entropy signature as a part is
    classified low itself, whatever stands before and after that part. *)
Theorem X17_low_entropy_in_any_context (pre type_str post : str)
    (Hlow : is_low_entropy_type type_str = true) :
  is_low_entropy_type (pre ++ type_str ++ post) = true.
Proof.
  rewrite is_low_entropy_type_unfold in Hlow |- *.
  rewrite !orb_true_iff in Hlow |- *.
  destruct Hlow as [[[H | H] | H] | H].
  - left; left; left.
    eapply found_in_context; [|exact H]. reflexivity.
  - left; left; right.
    eapply found_in_context; [|exact H]. reflexivity.
  - left; right.
    eapply found_in_context; [apply classes_Lit | exact H].
  - right.
    eapply found_in_context; [apply classes_Lit | exact H].
Qed.

Lemma occurs_head_in (c : char) (w s : str) : occurs (c :: w) s -> In c s.
Proof.
  intros (pre & post & ->). apply in_or_app. right. left. reflexivity.
Qed.

Lemma only_head (c : char) (tail pre x : str) :
  ~ In c tail -> c :: tail = pre ++ c :: x -> pre = [].
Proof.
  intros Hn E. destruct pre as [|y pre]; [reflexivity|].
  injection E as _ E. exfalso. apply Hn. rewrite E.
  apply in_or_app. right. left. reflexivity.
Qed.

Lemma digit_in (ds : str) (c : char) :
  forallb is_digit ds = true -> In c ds -> is_digit c = true.
Proof. intros H. rewrite forallb_forall in H. apply H. Qed.

(** The characters of [Uint<ds>] after the first, for digits [ds]. *)
Lemma uint_tail_chars (ds : str) (c : char) :
  forallb is_digit ds = true ->
  In c ($"int<" ++ ds ++ $">") ->
  In c $"int<>" \/ is_digit c = true.
Proof.
  intros Hd H. apply in_app_or in H. destruct H as [H | H].
  - left. simpl in H |- *. tauto.
  - apply in_app_or in H. destruct H as [H | H].
    + right. exact (digit_in _ _ Hd H).
    + left. simpl in H |- *. tauto.
Qed.

Lemma uint_no_char (ds : str) (c : char) :
  forallb is_digit ds = true ->
  is_digit c = false -> ~ In c $"int<>" ->
  ~ In c ($"int<" ++ ds ++ $">").
Proof.
  intros Hd Hc Hn H.
  destruct (uint_tail_chars ds c Hd H) as [X | X]; [auto | congruence].
Qed.

(** The digits between [<] and [>] when a literal with one more class
    stands in [Uint<ds>]. *)
Lemma uint_occurrence (ds w0 : str) (d : char) :
  forallb is_digit ds = true ->
  forallb is_digit (w0 ++ [d]) = true ->
  occurs ($"Uint<" ++ w0 ++ [d] ++ $">") ($"Uint<" ++ ds ++ $">") ->
  ds = w0 ++ [d].
Proof.
  intros Hd Hw (pre & post & E).
  assert (P : pre = []).
  { apply (only_head "U" ($"int<" ++ ds ++ $">") pre
                     ($"int<" ++ w0 ++ [d] ++ $">" ++ post)).
    - apply uint_no_char; [exact Hd | reflexivity|].
      simpl. intuition discriminate.
    - rewrite <- !app_assoc in E. exact E. }
  subst pre. rewrite <- !app_assoc in E. cbn [app] in E.
  apply (app_inv_head $"Uint<") in E.
  change (w0 ++ d :: $">" ++ post) with (w0 ++ [d] ++ $">" ++ post) in E.
  rewrite (app_assoc w0) in E.
  revert E Hd Hw. generalize (w0 ++ [d]). clear w0 d.
  intros w. revert w. induction ds as [|c ds IH]; intros w E Hd Hw.
  - destruct w as [|y w]; [reflexivity|].
    simpl in E. injection E as <- _. simpl in Hw. discriminate Hw.
  - destruct w as [|y w].
    + simpl in E. injection E as -> _. simpl in Hd. discriminate Hd.
    + simpl in E. injection E as <- E. simpl in Hd, Hw.
      apply andb_true_iff in Hd. apply andb_true_iff in Hw.
      rewrite (IH w E (proj2 Hd) (proj2 Hw)). reflexivity.
Qed.

(** X18: for a width written in decimal digits, of any script, [Uint<ds>]
    is classified low exactly when [ds] is one digit from [1] to [9], or
    the digit [1] and one digit from [0] to [9]: a width of 0, a width
    with a leading zero, every width of three digits or more and every
    width in other digits than [0] to [9] are classified normal. *)
Theorem X18_uint_widths (ds : str)
    (Hdigits : forallb is_digit ds = true) :
  is_low_entropy_type ($"Uint<" ++ ds ++ $">") = true
  <-> (exists d, between 49 57 d = true /\ ds = [d])
      \/ (exists d, between 48 57 d = true /\ ds = [chr "1"; d]).
Proof.
  rewrite is_low_entropy_type_unfold, !orb_true_iff. split.
  - intros [[[H | H] | H] | H].
    + apply found_literal_class in H. destruct H as (d & Hp & Ho).
      left. exists d. split; [exact Hp|].
      apply (uint_occurrence ds [] d Hdigits); [|exact Ho].
      cbn [app forallb]. rewrite andb_true_r. apply ascii_digit.
      apply between_spec in Hp. apply between_spec. lia.
    + apply found_literal_class in H. destruct H as (d & Hp & Ho).
      right. exists d. split; [exact Hp|].
      apply (uint_occurrence ds [chr "1"] d Hdigits); [|exact Ho].
      cbn [app forallb]. rewrite andb_true_r, (ascii_digit d Hp).
      reflexivity.
    + exfalso. apply found_literal in H. apply occurs_head_in in H.
      destruct H as [H | H]; [discriminate H|].
      revert H. apply uint_no_char; [exact Hdigits | reflexivity|].
      simpl. intuition discriminate.
    + exfalso. apply found_literal in H. apply occurs_head_in in H.
      destruct H as [H | H]; [discriminate H|].
      revert H. apply uint_no_char; [exact Hdigits | reflexivity|].
      simpl. intuition discriminate.
  - intros [(d & Hp & ->) | (d & Hp & ->)].
    + left; left; left. apply found_literal_class. exists d.
      split; [exact Hp|]. exists [], []. rewrite app_nil_r. reflexivity.
    + left; left; right. apply found_literal_class. exists d.
      split; [exact Hp|]. exists [], []. rewrite app_nil_r. reflexivity.
Qed.

End Entropy.

Section EntropyInstances.
Import Text Re Disclosure.

(** A declared signature that is none of the three kinds of type and is
    classified low all the same: it contains the word [Boolean]. *)
Lemma C4_low_without_low_type :
  find_witness_declarations $"witness getFlag(): Maybe<Boolean>;"
  = [($"getFlag", 1%Z, $"Maybe<Boolean>")]
  /\ is_low_entropy_type $"Maybe<Boolean>" = true
  /\ ~ structurally_low $"Maybe<Boolean>".
Proof.
  split; [reflexivity|]. split; [reflexivity|].
  intros [(n & _ & H) | [H | (v & H)]]; discriminate H.
Qed.


Lemma X17_low_entropy_in_any_context_witness :
  is_low_entropy_type ($"Vector<256, " ++ $"Boolean" ++ $">") = true.
Proof.
  apply (X17_low_entropy_in_any_context $"Vector<256, " $"Boolean" $">").
  reflexivity.
Defined.

Lemma X18_uint_widths_witness :
  is_low_entropy_type $"Uint<08>" = true
  <-> (exists d, between 49 57 d = true /\ $"08" = [d])
      \/ (exists d, between 48 57 d = true /\ $"08" = [chr "1"; d]).
Proof. apply (X18_uint_widths $"08"). reflexivity. Defined.

End EntropyInstances.

(** ** The disclosure rules *)

Section DisclosureRules.
Import Text Re Disclosure.
Context {U : Unicode}.

(** The lines that branch on an accessor are the only source of issues in
    a scan of the lines. *)
Lemma control_flow_issues_from (i : Z) (lines : list str) :
  flat_map
    (fun il : Z * str =>
       if found control_flow_pattern (snd il)
       then [control_flow_issue (fst il)] else [])
    (enumerate_from i lines) = []
  <-> Forall (fun l => found control_flow_pattern l = false) lines.
Proof.
  revert i; induction lines as [|l lines IH]; intros i; simpl.
  - split; [constructor | reflexivity].
  - destruct (found control_flow_pattern l) eqn:E; simpl.
    + split; [discriminate | intros H; inversion H; congruence].
    + rewrite IH. split; [intros H; constructor; assumption|].
      intros H; inversion H; assumption.
Qed.

Lemma control_flow_issues_nil (lines : list str) :
  control_flow_issues lines = []
  <-> Forall (fun l => found control_flow_pattern l = false) lines.
Proof. apply control_flow_issues_from. Qed.

(** C1, as the code has it: in a file without witness declarations the
    issues are exactly those of the scan for branches on an accessor, one
    high issue for each line [if ... get_<name>()]; the list is empty, and
    the exit code 0, exactly when no line has that shape, and the exit
    code is 1 otherwise. *)
Theorem C1_no_witness_only_control_flow (content prog filepath : str)
    (fs : file_system)
    (Hnone : find_witness_declarations content = [])
    (Hext : endswith $".compact" filepath = true)
    (Hread : fs filepath = ReadOk content) :
  check_disclosure_violations content (split_lines content)
  = control_flow_issues (split_lines content)
  /\ (check_disclosure_violations content (split_lines content) = []
      <-> Forall (fun l => found control_flow_pattern l = false)
                 (split_lines content))
  /\ exit_code (main [prog; filepath] fs)
     = (if is_nil (control_flow_issues (split_lines content))
        then 0 else 1)%Z.
Proof.
  assert (E : check_disclosure_violations content (split_lines content)
              = control_flow_issues (split_lines content)).
  { unfold check_disclosure_violations. rewrite Hnone. reflexivity. }
  split; [exact E|]. split.
  - rewrite E. apply control_flow_issues_nil.
  - unfold main, parse_compact_file.
    change ((length [prog; filepath] <? 2)%nat) with false.
    change (nth 1 [prog; filepath] []) with filepath.
    rewrite Hext, Hread. cbn [negb]. rewrite E.
    destruct (control_flow_issues (split_lines content)); reflexivity.
Qed.

Lemma ledger_check_spec (witness_name : str) (line_num : Z)
    (line_content : str) :
  ledger_check witness_name line_num line_content
  = if contains witness_name line_content
       && negb (contains $"disclose" line_content)
    then map (fun op => ledger_issue witness_name op line_num)
             (ops_called line_content)
    else [].
Proof.
  unfold ledger_check, ops_called.
  destruct (contains witness_name line_content
            && negb (contains $"disclose" line_content)).
  - induction ledger_ops as [|op ops IH]; [reflexivity|].
    cbn [flat_map filter].
    destruct (contains ($"." ++ op ++ $"(") line_content);
      cbn [map app]; rewrite IH; reflexivity.
  - induction ledger_ops as [|op ops IH]; [reflexivity|].
    cbn [flat_map]. rewrite IH.
    destruct (contains ($"." ++ op ++ $"(") line_content); reflexivity.
Qed.

Lemma filter_medium_ledger (witness_name : str) (line_num : Z)
    (ops : list str) :
  filter is_medium (map (fun op => ledger_issue witness_name op line_num) ops)
  = map (fun op => ledger_issue witness_name op line_num) ops.
Proof.
  induction ops as [|op ops IH]; [reflexivity|].
  cbn [map filter]. change (is_medium (ledger_issue witness_name op line_num))
    with true. cbv iota. rewrite IH. reflexivity.
Qed.

(** The text of a ledger issue tells the operation. *)
Lemma ledger_issue_inj (witness_name op1 op2 : str) (n : Z) :
  ledger_issue witness_name op1 n = ledger_issue witness_name op2 n ->
  op1 = op2.
Proof.
  unfold ledger_issue. intros H. apply (f_equal description) in H.
  cbn [description] in H.
  apply app_inv_head in H. apply app_inv_head in H.
  apply app_inv_head in H. apply app_inv_tail in H. exact H.
Qed.

(** C10: on a usage line the medium issues are one for each ledger
    operation whose call [.<op>(] is on the line, in the order of the table
    of operations, provided the witness name is on the line and [disclose]
    is not; they are all different.  A line that calls [set] and [push]
    gets two medium issues for the same witness and line. *)
Theorem C10_one_issue_per_ledger_op (witness_name type_str : str)
    (line_num : Z) (line_content : str) :
  filter is_medium
    (usage_issues witness_name type_str (line_num, line_content))
  = (if contains witness_name line_content
        && negb (contains $"disclose" line_content)
     then map (fun op => ledger_issue witness_name op line_num)
              (ops_called line_content)
     else [])
  /\ NoDup (filter is_medium
              (usage_issues witness_name type_str (line_num, line_content)))
  /\ check_disclosure_violations two_ops_example (split_lines two_ops_example)
     = [ledger_issue $"getAge" $"push" 2; ledger_issue $"getAge" $"set" 2].
Proof.
  assert (E : filter is_medium
                (usage_issues witness_name type_str (line_num, line_content))
              = if contains witness_name line_content
                   && negb (contains $"disclose" line_content)
                then map (fun op => ledger_issue witness_name op line_num)
                         (ops_called line_content)
                else []).
  { unfold usage_issues. cbn [fst snd]. rewrite !filter_app.
    rewrite ledger_check_spec.
    assert (H1 : filter is_medium
                   (hash_check witness_name type_str line_num line_content)
                 = []).
    { unfold hash_check.
      destruct (contains $"persistentHash" line_content); [|reflexivity].
      destruct (is_low_entropy_type type_str); reflexivity. }
    assert (H2 : filter is_medium
                   (return_check witness_name line_num line_content) = []).
    { unfold return_check.
      destruct (contains $"return" line_content
                && negb (contains $"disclose" line_content)); [|reflexivity].
      destruct (contains witness_name line_content); reflexivity. }
    rewrite H1, H2. cbn [app].
    destruct (contains witness_name line_content
              && negb (contains $"disclose" line_content)); [|reflexivity].
    apply filter_medium_ledger. }
  split; [exact E|]. split.
  - rewrite E.
    destruct (contains witness_name line_content
              && negb (contains $"disclose" line_content)); [|constructor].
    apply Injective_map_NoDup.
    + intros op1 op2. apply ledger_issue_inj.
    + unfold ops_called. apply NoDup_filter.
      unfold ledger_ops.
      repeat (constructor; [simpl; intuition discriminate|]). constructor.
  - vm_compute. reflexivity.
Qed.

(** C9: on a usage line whose text contains [disclose] anywhere, also
    inside a longer word, the return rule and the ledger rule emit
    nothing, and the issues of the line are those of the rule on hashing a
    low-entropy witness alone; the line is the raw line of the file, which
    the engine strips of surrounding blanks.  The rule on hashing and the
    scan for branches on an accessor do not look for [disclose]: they fire
    on lines that contain it. *)
Theorem C9_disclose_suppresses_return_and_ledger
    (witness_name type_str : str) (line_num : Z) (raw_line : str)
    (Hdisclose : contains $"disclose" raw_line = true) :
  return_check witness_name line_num (strip raw_line) = []
  /\ ledger_check witness_name line_num (strip raw_line) = []
  /\ usage_issues witness_name type_str (line_num, strip raw_line)
     = hash_check witness_name type_str line_num (strip raw_line)
  /\ check_disclosure_violations
       ($"witness get_age(): Uint<8>;" ++ nl
        ++ $"if undisclosed(persistentHash(get_age())) { return x.set(1); }")
       (split_lines
          ($"witness get_age(): Uint<8>;" ++ nl
           ++ $"if undisclosed(persistentHash(get_age())) { return x.set(1); }"))
     = [low_entropy_issue $"get_age" $"Uint<8>" 2; control_flow_issue 2].
Proof.
  assert (Hs : contains $"disclose" (strip raw_line) = true).
  { apply contains_occurs. apply contains_occurs in Hdisclose.
    eapply strip_occurs; try exact Hdisclose; reflexivity. }
  assert (R : return_check witness_name line_num (strip raw_line) = []).
  { unfold return_check. rewrite Hs, andb_false_r. reflexivity. }
  assert (L : ledger_check witness_name line_num (strip raw_line) = []).
  { rewrite ledger_check_spec, Hs, andb_false_r. reflexivity. }
  split; [exact R|]. split; [exact L|]. split.
  - unfold usage_issues. cbn [fst snd]. rewrite R, L, app_nil_r. reflexivity.
  - vm_compute. reflexivity.
Qed.

End DisclosureRules.

Section DisclosureInstances.
Import Text Re Disclosure.

Lemma C1_no_witness_only_control_flow_witness :
  check_disclosure_violations $"ledger counter: Counter;"
    (split_lines $"ledger counter: Counter;") = []
  /\ exit_code (main [$"check-disclosure.py"; $"a.compact"]
                     (fun _ => ReadOk $"ledger counter: Counter;")) = 0%Z.
Proof.
  destruct (C1_no_witness_only_control_flow
              $"ledger counter: Counter;" $"check-disclosure.py"
              $"a.compact" (fun _ => ReadOk $"ledger counter: Counter;")
              eq_refl eq_refl eq_refl) as (E & _ & X).
  split; (etransitivity; [eassumption | reflexivity]).
Defined.

(** A file without any witness declaration whose only line branches on an
    accessor: one issue, exit code 1. *)
Lemma C1_branch_without_witness :
  find_witness_declarations $"if get_x() {" = []
  /\ check_disclosure_violations $"if get_x() {" (split_lines $"if get_x() {")
     = [control_flow_issue 1]
  /\ exit_code (main [$"check-disclosure.py"; $"a.compact"]
                     (fun _ => ReadOk $"if get_x() {")) = 1%Z
  /\ check_disclosure_violations $"if get_x() {" (split_lines $"if get_x() {")
     <> []
  /\ exit_code (main [$"check-disclosure.py"; $"a.compact"]
                     (fun _ => ReadOk $"if get_x() {")) <> 0%Z.
Proof. vm_compute. repeat split; discriminate. Qed.

Lemma C9_disclose_suppresses_return_and_ledger_witness :
  usage_issues $"getAge" $"Uint<8>"
    (3%Z, strip $"   return undisclosed.set(persistentHash(getAge()));  ")
  = [low_entropy_issue $"getAge" $"Uint<8>" 3].
Proof.
  destruct (C9_disclose_suppresses_return_and_ledger $"getAge" $"Uint<8>" 3
              $"   return undisclosed.set(persistentHash(getAge()));  "
              eq_refl) as (_ & _ & E & _).
  etransitivity; [exact E | reflexivity].
Defined.

End DisclosureInstances.

(** ** Declarations of witnesses *)

Section DeclarationFacts.
Import Text Re Disclosure.
Context {U : Unicode}.

Lemma witness_pattern_parts :
  witness_pattern
  = Seq (Lit $"witness")
        (Seq (Plus Space) (Seq (Grp 1 (Plus Word)) witness_tail)).
Proof. reflexivity. Qed.

(** The name and the type a match of the declaration pattern captures. *)
Lemma witness_match_groups (prev : option char) (s : str)
    (m : rmatch_result) :
  match_at witness_pattern prev s = Some m ->
  is_identifier (group 1 (m_caps m))
  /\ exists w g, is_identifier w /\ group 2 (m_caps m) = w ++ g.
Proof.
  unfold match_at. rewrite witness_pattern_parts, rmatch_Seq. intros H.
  apply rmatch_consumes in H. destruct H as (w0 & s0 & p0 & c0 & -> & H & _).
  rewrite rmatch_Seq in H. apply rmatch_consumes in H.
  destruct H as (w1 & s1 & p1 & c1 & -> & H & _).
  rewrite rmatch_Seq, rmatch_Grp in H. unfold Word in H.
  apply plus_cls_sound in H.
  destruct H as (name & s2 & Hne & Hw & -> & H).
  rewrite firstn_consumed in H.
  split.
  - (* the name *)
    apply rmatch_consumes in H.
    destruct H as (w3 & s3 & p3 & c3 & -> & H & G).
    injection H as <-. cbn [m_caps]. rewrite G.
    + cbn [group Nat.eqb]. split; assumption.
    + simpl. intros [X | []]. discriminate X.
  - (* the type *)
    unfold witness_tail in H. cbn [Cat] in H.
    do 7 (rewrite rmatch_Seq in H; apply rmatch_consumes in H;
          destruct H as (? & ? & ? & ? & -> & H & _)).
    rewrite rmatch_Seq, rmatch_Grp, rmatch_Seq in H.
    apply plus_cls_sound in H.
    destruct H as (w & s4 & Hwne & Hww & -> & H).
    apply rmatch_consumes in H.
    destruct H as (g & s5 & p5 & c5 & -> & H & _).
    rewrite app_assoc, firstn_consumed in H.
    change (Seq (Star Space) (Chr ";")) with witness_end in H.
    apply rmatch_consumes in H.
    destruct H as (w6 & s6 & p6 & c6 & -> & H & G).
    injection H as <-. cbn [m_caps]. rewrite G.
    + cbn [group Nat.eqb]. exists w, g. split; [split; assumption|].
      reflexivity.
    + simpl. tauto.
Qed.

(** Items picked from numbered lines, one at most for a line and carrying
    its number, come with numbers that go up and stay within the lines. *)
Lemma enumerate_keys {X : Type} (key : X -> Z) (f : Z * str -> list X) :
  (forall il x, In x (f il) -> key x = fst il) ->
  (forall il, (length (f il) <= 1)%nat) ->
  forall ls i,
    increasing (map key (flat_map f (enumerate_from i ls)))
    /\ Forall (fun z => (i <= z < i + Z.of_nat (length ls))%Z)
              (map key (flat_map f (enumerate_from i ls))).
Proof.
  intros Hkey Hone. induction ls as [|l ls IH]; intros i.
  - simpl. split; constructor.
  - cbn [enumerate_from flat_map]. rewrite map_app.
    destruct (IH (i + 1)%Z) as [Hinc Hran].
    assert (Hran' : Forall (fun z => (i < z < i + Z.of_nat (S (length ls)))%Z)
                      (map key (flat_map f (enumerate_from (i + 1) ls)))).
    { eapply Forall_impl; [|exact Hran]. intros z Hz.
      cbv beta in Hz |- *. lia. }
    assert (Hran2 : Forall (fun z => (i <= z < i + Z.of_nat (S (length ls)))%Z)
                      (map key (flat_map f (enumerate_from (i + 1) ls)))).
    { eapply Forall_impl; [|exact Hran']. intros z Hz.
      cbv beta in Hz |- *. lia. }
    pose proof (Hone (i, l)) as H1. pose proof (Hkey (i, l)) as Hk.
    cbn [length].
    destruct (f (i, l)) as [|x [|y t]]; [| |cbn [length] in H1; lia].
    + cbn [map app]. split; [exact Hinc | exact Hran2].
    + cbn [map app]. rewrite (Hk x (or_introl eq_refl)). cbn [fst]. split.
      * cbn [increasing]. split; [|exact Hinc].
        destruct (map key (flat_map f (enumerate_from (i + 1) ls)))
          as [|z zs]; [exact I|].
        inversion Hran' as [|? ? Hz ?]; subst. cbv beta in Hz. lia.
      * constructor; [lia | exact Hran2].
Qed.

Lemma enumerate_nth (ls : list str) :
  forall i n l,
    In (n, l) (enumerate_from i ls) ->
    nth_error ls (Z.to_nat (n - i)) = Some l.
Proof.
  induction ls as [|x ls IH]; intros i n l H; [destruct H|].
  cbn [enumerate_from] in H. destruct H as [H | H].
  - injection H as <- <-. rewrite Z.sub_diag. reflexivity.
  - pose proof (IH _ _ _ H) as E.
    assert (Hn : (i + 1 <= n)%Z).
    { clear E IH. revert i H. induction ls as [|y ls IH]; intros i H;
        [destruct H|].
      cbn [enumerate_from] in H. destruct H as [H | H].
      - injection H as <- _. lia.
      - specialize (IH _ H). lia. }
    replace (Z.to_nat (n - i)) with (S (Z.to_nat (n - (i + 1)))) by lia.
    exact E.
Qed.

(** What the registry records of a declaration. *)
Lemma registry_entries (content : str) :
  Forall (fun d : str * Z * str =>
            is_identifier (fst (fst d))
            /\ exists w g, is_identifier w /\ snd d = w ++ g)
         (find_witness_declarations content).
Proof.
  unfold find_witness_declarations. apply Forall_forall. intros d Hd.
  apply in_flat_map in Hd. destruct Hd as (il & _ & Hd).
  destruct (search witness_pattern (snd il)) as [[n m]|] eqn:E;
    [|destruct Hd].
  destruct Hd as [<- | []]. cbn [fst snd].
  unfold search in E. apply search_from_sound in E.
  destruct E as (pre & _ & _ & M).
  exact (witness_match_groups _ _ _ M).
Qed.

(** X1: every witness the registry records has an identifier for a
    name (one word character or more, and nothing else), and a type that
    starts with an identifier. *)
Theorem X1_declared_witnesses_well_formed (content : str) :
  Forall (fun d : str * Z * str =>
            is_identifier (fst (fst d))
            /\ exists w g, is_identifier w /\ snd d = w ++ g)
         (find_witness_declarations content).
Proof. exact (registry_entries content). Qed.

(** X2: the registry records one declaration at most for a line: the
    line numbers of the declarations go up strictly, and they are line
    numbers of the file, from 1 to the number of its lines. *)
Theorem X2_declarations_one_per_line (content : str) :
  increasing (map (fun d : str * Z * str => snd (fst d))
                  (find_witness_declarations content))
  /\ Forall (fun n => (1 <= n <= Z.of_nat (length (split_lines content)))%Z)
            (map (fun d : str * Z * str => snd (fst d))
                 (find_witness_declarations content)).
Proof.
  unfold find_witness_declarations.
  match goal with
  | |- context [flat_map ?f _] =>
      destruct (enumerate_keys (fun d : str * Z * str => snd (fst d)) f)
        with (ls := split_lines content) (i := 1%Z) as [H1 H2]
  end.
  - intros il x Hx.
    destruct (search witness_pattern (snd il)) as [[n m]|]; [|destruct Hx].
    destruct Hx as [<- | []]. reflexivity.
  - intros il. destruct (search witness_pattern (snd il)) as [[n m]|];
      simpl; lia.
  - split; [exact H1|]. eapply Forall_impl; [|exact H2].
    intros z Hz. cbv beta in Hz |- *. lia.
Qed.

End DeclarationFacts.

(** ** Usages of a witness and the issues of the engine *)

Section UsageFacts.
Import Text Re Disclosure.
Context {U : Unicode}.

(** A line the usage pattern is found on has the name on it. *)
Lemma usage_found_occurs (witness_name l : str) :
  found (usage_pattern witness_name) l = true -> occurs witness_name l.
Proof.
  intros H. apply found_iff in H. destruct H as (pre & suf & -> & H).
  unfold match_at in H.
  match type of H with
  | ?t <> None => destruct t as [m|] eqn:E; [clear H | congruence]
  end.
  unfold usage_pattern in E. cbn [Cat] in E. rewrite rmatch_Seq in E.
  cbn [rmatch] in E.
  destruct (xorb (wordy (last_char None pre)) (wordy (hd_error suf)));
    [|discriminate].
  change (rmatch (Seq (Lit witness_name)
                      (Seq (Star Space) (Seq (Chr "(")
                         (Seq (Star Space) (Chr ")")))))
                 (last_char None pre) suf [] 
                 (fun _ s' caps =>
                    Some (MkMatch (firstn (length suf - length s') suf)
                                  s' caps)) = Some m) in E.
  rewrite rmatch_Seq in E. apply literal_sound in E.
  destruct E as (rest & -> & _). exists pre, rest. reflexivity.
Qed.

Lemma identifier_ends (w : str) :
  is_identifier w ->
  exists c t d u,
    w = c :: t /\ rev w = d :: u
    /\ is_space c = false /\ is_space d = false.
Proof.
  intros [Hne Hw]. rewrite forallb_forall in Hw.
  destruct w as [|c t]; [congruence|].
  destruct (rev (c :: t)) as [|d u] eqn:E.
  - apply (f_equal (@length char)) in E. rewrite length_rev in E.
    discriminate E.
  - exists c, t, d, u. split; [reflexivity|]. split; [reflexivity|].
    split; apply word_not_space, Hw.
    + left. reflexivity.
    + apply in_rev. rewrite E. left. reflexivity.
Qed.

Lemma enumerate_range (ls : list str) :
  forall i n l,
    In (n, l) (enumerate_from i ls) ->
    (i <= n < i + Z.of_nat (length ls))%Z.
Proof.
  induction ls as [|x ls IH]; intros i n l H; [destruct H|].
  cbn [enumerate_from] in H. cbn [length]. destruct H as [H | H].
  - injection H as <- _. lia.
  - specialize (IH _ _ _ H). lia.
Qed.

(** A usage is a line of the file, stripped. *)
Lemma usage_is_line (content witness_name : str) (u : Z * str) :
  In u (find_witness_usages content witness_name) ->
  exists l,
    In (fst u, l) (enumerate_from 1 (split_lines content))
    /\ found (usage_pattern witness_name) l = true /\ snd u = strip l.
Proof.
  unfold find_witness_usages. intros H. apply in_flat_map in H.
  destruct H as ([n l] & Hin & H). cbn [fst snd] in H.
  destruct (found (usage_pattern witness_name) l) eqn:F; [|destruct H].
  destruct H as [<- | []]. exists l. auto.
Qed.

(** The usages of an identifier, one by one. *)
Lemma usage_lines (content witness_name : str) :
  is_identifier witness_name ->
  Forall (fun u : Z * str =>
            exists l,
              nth_error (split_lines content) (Z.to_nat (fst u - 1)) = Some l
              /\ (1 <= fst u)%Z /\ snd u = strip l
              /\ contains witness_name (snd u) = true)
         (find_witness_usages content witness_name).
Proof.
  intros Hname. apply Forall_forall. intros u Hu.
  destruct (usage_is_line _ _ _ Hu) as (l & Hin & F & E).
  exists l. split; [exact (enumerate_nth _ _ _ _ Hin)|].
  split; [apply (enumerate_range _ _ _ _ Hin)|]. split; [exact E|].
  rewrite E. apply contains_occurs.
  destruct (identifier_ends _ Hname) as (c & t & d & x & E1 & E2 & S1 & S2).
  eapply strip_occurs; try eassumption.
  apply usage_found_occurs. exact F.
Qed.

(** X3: the usages of an identifier are lines of the file, in the order of
    the file and one for a line at most, each with its number, from 1 on,
    and the text of that line stripped of the blanks around it; and the
    name stands in that text. *)
Theorem X3_usages_are_stripped_lines_with_name (content witness_name : str)
    (Hname : is_identifier witness_name) :
  Forall (fun u : Z * str =>
            exists l,
              nth_error (split_lines content) (Z.to_nat (fst u - 1)) = Some l
              /\ (1 <= fst u)%Z /\ snd u = strip l
              /\ contains witness_name (snd u) = true)
         (find_witness_usages content witness_name)
  /\ increasing (map fst (find_witness_usages content witness_name)).
Proof.
  split; [exact (usage_lines content witness_name Hname)|].
  unfold find_witness_usages.
  match goal with
  | |- context [flat_map ?f _] =>
      destruct (enumerate_keys (@fst Z str) f)
        with (ls := split_lines content) (i := 1%Z) as [H1 _]
  end.
  - intros il x Hx.
    destruct (found (usage_pattern witness_name) (snd il)); [|destruct Hx].
    destruct Hx as [<- | []]. reflexivity.
  - intros il. destruct (found (usage_pattern witness_name) (snd il));
      simpl; lia.
  - exact H1.
Qed.

(** X4: on the usages of a declared witness the test of the name in the
    return rule and in the ledger rule always succeeds: the return rule
    fires exactly when the line has [return] and not [disclose], the ledger
    rule for every operation called exactly when the line has not
    [disclose]. *)
Theorem X4_name_test_always_succeeds (content : str) :
  Forall (fun d : str * Z * str =>
            Forall (fun u : Z * str =>
                      return_check (fst (fst d)) (fst u) (snd u)
                      = (if contains $"return" (snd u)
                            && negb (contains $"disclose" (snd u))
                         then [return_issue (fst (fst d)) (fst u)] else [])
                      /\ ledger_check (fst (fst d)) (fst u) (snd u)
                         = (if negb (contains $"disclose" (snd u))
                            then map (fun op =>
                                        ledger_issue (fst (fst d)) op (fst u))
                                     (ops_called (snd u))
                            else []))
                   (find_witness_usages content (fst (fst d))))
         (find_witness_declarations content).
Proof.
  pose proof (registry_entries content) as W.
  eapply Forall_impl; [|exact W]. intros d [Hid _].
  pose proof (usage_lines content _ Hid) as Us.
  eapply Forall_impl; [|exact Us]. intros u (l & _ & _ & _ & C).
  split.
  - unfold return_check. rewrite C. reflexivity.
  - rewrite ledger_check_spec, C. reflexivity.
Qed.

Lemma usage_issue_shape (witness_name type_str : str) (n : Z) (lc : str)
    (x : DisclosureIssue) :
  In x (usage_issues witness_name type_str (n, lc)) ->
  line x = n /\ other_severity x = false.
Proof.
  unfold usage_issues. cbn [fst snd]. rewrite !in_app_iff.
  intros [H | [H | H]].
  - unfold hash_check in H.
    destruct (contains $"persistentHash" lc); [|destruct H].
    destruct (is_low_entropy_type type_str); [|destruct H].
    destruct H as [<- | []]. split; reflexivity.
  - unfold return_check in H.
    destruct (contains $"return" lc && negb (contains $"disclose" lc));
      [|destruct H].
    destruct (contains witness_name lc); [|destruct H].
    destruct H as [<- | []]. split; reflexivity.
  - rewrite ledger_check_spec in H.
    destruct (contains witness_name lc && negb (contains $"disclose" lc));
      [|destruct H].
    apply in_map_iff in H. destruct H as (op & <- & _). split; reflexivity.
Qed.

(** Every issue of the engine, with the line it is on. *)
Lemma issue_shape (content : str) (x : DisclosureIssue) :
  In x (check_disclosure_violations content (split_lines content)) ->
  (1 <= line x <= Z.of_nat (length (split_lines content)))%Z
  /\ other_severity x = false.
Proof.
  unfold check_disclosure_violations. rewrite in_app_iff. intros [H | H].
  - apply in_flat_map in H. destruct H as ([[name dl] t] & _ & H).
    unfold witness_issues in H. apply in_flat_map in H.
    destruct H as ([n lc] & Hu & H).
    destruct (usage_issue_shape _ _ _ _ _ H) as [-> Hs].
    split; [|exact Hs].
    destruct (usage_is_line _ _ _ Hu) as (l & Hin & _).
    pose proof (enumerate_range _ _ _ _ Hin) as R. cbn [fst] in R. lia.
  - unfold control_flow_issues in H. apply in_flat_map in H.
    destruct H as ([n l] & Hin & H). cbn [fst snd] in H.
    destruct (found control_flow_pattern l); [|destruct H].
    destruct H as [<- | []].
    pose proof (enumerate_range _ _ _ _ Hin).
    split; [cbn [line control_flow_issue]; lia | reflexivity].
Qed.

(** X5: every issue the engine emits is on a line of the file, its number
    between 1 and the number of lines, and is critical, high or medium. *)
Theorem X5_issues_on_lines_with_known_severity (content : str) :
  Forall (fun x =>
            (1 <= line x <= Z.of_nat (length (split_lines content)))%Z
            /\ (severity x = $"critical" \/ severity x = $"high"
                \/ severity x = $"medium"))
         (check_disclosure_violations content (split_lines content)).
Proof.
  apply Forall_forall. intros x Hx.
  destruct (issue_shape content x Hx) as [Hl Hs]. split; [exact Hl|].
  unfold other_severity, has_severity in Hs.
  apply negb_false_iff in Hs. rewrite !orb_true_iff in Hs.
  destruct Hs as [[Hs | Hs] | Hs]; apply str_eqb_eq in Hs; auto.
Qed.

Lemma filter_none {X : Type} (f : X -> bool) (l : list X) :
  (forall x, In x l -> f x = false) -> filter f l = [].
Proof.
  induction l as [|x l IH]; intros H; [reflexivity|].
  simpl. rewrite (H x (or_introl eq_refl)). apply IH.
  intros y Hy. apply H. right. exact Hy.
Qed.

(** X6: what the checker prints is the critical issues, then the high
    ones, then the medium ones, each group in the order the engine found
    them: the place for other severities stays empty. *)
Theorem X6_printed_in_three_groups (prog filepath content : str)
    (fs : file_system)
    (Hext : endswith $".compact" filepath = true)
    (Hread : fs filepath = ReadOk content) :
  printed (main [prog; filepath] fs)
  = filter (has_severity $"critical")
           (check_disclosure_violations content (split_lines content))
    ++ filter (has_severity $"high")
              (check_disclosure_violations content (split_lines content))
    ++ filter (has_severity $"medium")
              (check_disclosure_violations content (split_lines content)).
Proof.
  rewrite (main_prints_sorted [prog; filepath] fs prog filepath content
             eq_refl Hext Hread).
  rewrite (sort_by_tiers severity_key _ (severity_key_range _)).
  unfold tier.
  rewrite (filter_ext (fun y => (severity_key y =? 0)%Z)
                      (has_severity $"critical"))
    by (intros x; apply (severity_key_spec x)).
  rewrite (filter_ext (fun y => (severity_key y =? 1)%Z)
                      (has_severity $"high"))
    by (intros x; apply (severity_key_spec x)).
  rewrite (filter_ext (fun y => (severity_key y =? 2)%Z)
                      (has_severity $"medium"))
    by (intros x; apply (severity_key_spec x)).
  replace (filter (fun y => (severity_key y =? 3)%Z)
                  (check_disclosure_violations content (split_lines content)))
    with (@nil DisclosureIssue); [rewrite app_nil_r; reflexivity|].
  symmetry. apply filter_none. intros x Hx.
  destruct (severity_key_spec x) as (_ & _ & _ & ->).
  exact (proj2 (issue_shape content x Hx)).
Qed.

(** X7: the exit code of the disclosure checker.  It is 2 when there is no
    argument, when the path does not end in [.compact], when the file is
    not found and on any other error of reading it; otherwise it is 0 when
    the engine finds no issue and 1 when it finds some; and nothing is
    printed of issues unless the code is 1. *)
Theorem X7_checker_exit_codes (argv : list str) (fs : file_system) :
  exit_code (main argv fs)
  = match argv with
    | _ :: filepath :: _ =>
        if endswith $".compact" filepath then
          match fs filepath with
          | ReadOk content =>
              if is_nil (check_disclosure_violations content
                           (split_lines content))
              then 0%Z else 1%Z
          | NotFound => 2%Z
          | ReadFailed => 2%Z
          end
        else 2%Z
    | _ => 2%Z
    end
  /\ (exit_code (main argv fs) = 1%Z \/ printed (main argv fs) = []).
Proof.
  unfold main, parse_compact_file.
  destruct argv as [|prog [|filepath rest]];
    try (split; [reflexivity | right; reflexivity]).
  change ((length (prog :: filepath :: rest) <? 2)%nat) with false.
  change (nth 1 (prog :: filepath :: rest) []) with filepath.
  destruct (endswith $".compact" filepath); cbn [negb];
    [|split; [reflexivity | right; reflexivity]].
  destruct (fs filepath) as [content| |];
    try (split; [reflexivity | right; reflexivity]).
  destruct (check_disclosure_violations content (split_lines content));
    split; try reflexivity; [right | left]; reflexivity.
Qed.

End UsageFacts.

Section UsageInstances.
Import Text Re Disclosure.

Lemma X3_usages_are_stripped_lines_with_name_witness :
  find_witness_usages
    ($"witness getAge(): Uint<8>;" ++ nl
     ++ [160%N] ++ $"  let h = persistentHash(getAge());  " ++ [160%N])
    $"getAge"
  = [(1%Z, $"witness getAge(): Uint<8>;");
     (2%Z, $"let h = persistentHash(getAge());")]
  /\ increasing
       (map fst
          (find_witness_usages
             ($"witness getAge(): Uint<8>;" ++ nl
              ++ [160%N] ++ $"  let h = persistentHash(getAge());  "
              ++ [160%N])
             $"getAge")).
Proof.
  split; [reflexivity|].
  apply (X3_usages_are_stripped_lines_with_name
           ($"witness getAge(): Uint<8>;" ++ nl
            ++ [160%N] ++ $"  let h = persistentHash(getAge());  "
            ++ [160%N])
           $"getAge").
  split; [discriminate | reflexivity].
Defined.

Lemma X6_printed_in_three_groups_witness :
  printed (main [$"check-disclosure.py"; $"rules.compact"]
                (fun _ => ReadOk
                   ($"witness get_age(): Uint<8>;" ++ nl
                    ++ $"if ok(get_age()) { return x.set(get_age()); }" ++ nl
                    ++ $"let h = persistentHash(get_age());")))
  = [low_entropy_issue $"get_age" $"Uint<8>" 3;
     return_issue $"get_age" 2; control_flow_issue 2;
     ledger_issue $"get_age" $"set" 2].
Proof.
  etransitivity;
    [apply (X6_printed_in_three_groups $"check-disclosure.py"
              $"rules.compact"
              ($"witness get_age(): Uint<8>;" ++ nl
               ++ $"if ok(get_age()) { return x.set(get_age()); }" ++ nl
               ++ $"let h = persistentHash(get_age());")
              (fun _ => ReadOk _) eq_refl eq_refl)
    | vm_compute; reflexivity].
Defined.

End UsageInstances.

(** ** The example of a low-entropy witness *)

Section AgeExample.
Import Text Re Disclosure.
Context {U : Unicode}.

Lemma enumerate_from_app (a b : list str) :
  forall i,
    enumerate_from i (a ++ b)
    = enumerate_from i a ++ enumerate_from (i + Z.of_nat (length a))%Z b.
Proof.
  induction a as [|l a IH]; intros i.
  - simpl. rewrite Z.add_0_r. reflexivity.
  - cbn [app enumerate_from length]. rewrite IH.
    replace (i + 1 + Z.of_nat (length a))%Z
      with (i + Z.of_nat (S (length a)))%Z by lia.
    reflexivity.
Qed.

(** A scan gets nothing out of lines that give nothing. *)
Lemma scan_nothing {X : Type} (f : Z * str -> list X) (ls : list str) :
  Forall (fun l => forall n, f (n, l) = []) ls ->
  forall i, flat_map f (enumerate_from i ls) = [].
Proof.
  induction 1 as [|l ls Hl _ IH]; intros i; [reflexivity|].
  cbn [enumerate_from flat_map]. rewrite Hl, IH. reflexivity.
Qed.

(** A scan of lines of which two only give something. *)
Lemma scan_two {X : Type} (f : Z * str -> list X)
    (before between after : list str) (d u : str) :
  Forall (fun l => forall n, f (n, l) = []) (before ++ between ++ after) ->
  flat_map f (enumerate_from 1 (before ++ d :: between ++ u :: after))
  = f ((Z.of_nat (length before) + 1)%Z, d)
    ++ f ((Z.of_nat (length before + length between) + 2)%Z, u).
Proof.
  intros H. apply Forall_app in H. destruct H as [Hb H].
  apply Forall_app in H. destruct H as [Hm Ha].
  rewrite enumerate_from_app, flat_map_app, (scan_nothing f before Hb).
  cbn [enumerate_from flat_map app].
  rewrite enumerate_from_app, flat_map_app, (scan_nothing f between Hm).
  cbn [enumerate_from flat_map app].
  rewrite (scan_nothing f after Ha), app_nil_r.
  replace (1 + Z.of_nat (length before))%Z
    with (Z.of_nat (length before) + 1)%Z by lia.
  replace (Z.of_nat (length before) + 1 + 1 + Z.of_nat (length between))%Z
    with (Z.of_nat (length before + length between) + 2)%Z by lia.
  reflexivity.
Qed.

Lemma quiet_lines (ls : list str) :
  forallb quiet ls = true ->
  Forall (fun l => found witness_pattern l = false
                   /\ found (usage_pattern $"getAge") l = false
                   /\ found control_flow_pattern l = false) ls.
Proof.
  intros H. apply Forall_forall. intros l Hl.
  rewrite forallb_forall in H. specialize (H l Hl). unfold quiet in H.
  apply andb_true_iff in H. destruct H as [H H3].
  apply andb_true_iff in H. destruct H as [H1 H2].
  apply negb_true_iff in H1, H2, H3. auto.
Qed.

(** C7: in a file with the declaration [witness getAge(): Uint<8>;] on one
    line, the use [let h = persistentHash(getAge());] on a later line, and
    other lines, as many as one likes, none of which declares a witness,
    calls [getAge] or branches on an accessor, the engine emits exactly one
    issue: it is critical, it is on the line of the use, and its
    description contains [getAge] and [Uint<8>]. *)
Theorem C7_low_entropy_hash_example (content : str)
    (before between after : list str)
    (Hlines : split_lines content
              = before ++ age_declaration :: between ++ age_use :: after)
    (Hquiet : forallb quiet (before ++ between ++ after) = true) :
  check_disclosure_violations content (split_lines content)
  = [low_entropy_issue $"getAge" $"Uint<8>"
       (Z.of_nat (length before + length between) + 2)]
  /\ nth_error (split_lines content) (length before + length between + 1)
     = Some age_use
  /\ line (low_entropy_issue $"getAge" $"Uint<8>"
             (Z.of_nat (length before + length between) + 2))
     = (Z.of_nat (length before + length between + 1) + 1)%Z
  /\ severity (low_entropy_issue $"getAge" $"Uint<8>"
                 (Z.of_nat (length before + length between) + 2))
     = $"critical"
  /\ contains $"getAge"
       (description (low_entropy_issue $"getAge" $"Uint<8>"
                       (Z.of_nat (length before + length between) + 2)))
     = true
  /\ contains $"Uint<8>"
       (description (low_entropy_issue $"getAge" $"Uint<8>"
                       (Z.of_nat (length before + length between) + 2)))
     = true.
Proof.
  pose proof (quiet_lines _ Hquiet) as Q.
  assert (D : find_witness_declarations content
              = [($"getAge", (Z.of_nat (length before) + 1)%Z, $"Uint<8>")]).
  { unfold find_witness_declarations. rewrite Hlines, scan_two.
    - generalize (Z.of_nat (length before) + 1)%Z.
      generalize (Z.of_nat (length before + length between) + 2)%Z.
      intros nu nd. vm_compute. reflexivity.
    - eapply Forall_impl; [|exact Q]. intros l (H & _ & _) n.
      cbn [snd]. unfold found in H.
      destruct (search witness_pattern l) as [[? ?]|];
        [discriminate H | reflexivity]. }
  assert (Us : find_witness_usages content $"getAge"
               = [((Z.of_nat (length before) + 1)%Z, age_declaration);
                  ((Z.of_nat (length before + length between) + 2)%Z,
                   age_use)]).
  { unfold find_witness_usages. rewrite Hlines, scan_two.
    - generalize (Z.of_nat (length before) + 1)%Z.
      generalize (Z.of_nat (length before + length between) + 2)%Z.
      intros nu nd. vm_compute. reflexivity.
    - eapply Forall_impl; [|exact Q]. intros l (_ & H & _) n.
      cbn [snd]. rewrite H. reflexivity. }
  assert (C : control_flow_issues (split_lines content) = []).
  { unfold control_flow_issues. rewrite Hlines, scan_two.
    - reflexivity.
    - eapply Forall_impl; [|exact Q]. intros l (_ & _ & H) n.
      cbn [snd]. rewrite H. reflexivity. }
  split.
  - unfold check_disclosure_violations. rewrite D, C.
    cbn [flat_map witness_issues app]. rewrite Us, !app_nil_r.
    generalize (Z.of_nat (length before) + 1)%Z.
    generalize (Z.of_nat (length before + length between) + 2)%Z.
    intros nu nd. vm_compute. reflexivity.
  - split.
    + rewrite Hlines.
      rewrite nth_error_app2 by lia.
      replace (length before + length between + 1 - length before)
        with (S (length between)) by lia.
      cbn [nth_error]. rewrite nth_error_app2 by lia.
      rewrite Nat.sub_diag. reflexivity.
    + split; [cbn [line low_entropy_issue]; lia|].
      repeat split; reflexivity.
Qed.

End AgeExample.

Section AgeInstances.
Import Text Re Disclosure.

(** The two lines inside a contract, one of whose other lines names
    [persistentHash] and another calls a ledger operation: one issue, on
    line 5. *)
Lemma C7_low_entropy_hash_example_witness :
  check_disclosure_violations age_contract (split_lines age_contract)
  = [low_entropy_issue $"getAge" $"Uint<8>" 5].
Proof.
  exact (proj1 (C7_low_entropy_hash_example age_contract
                  [$"pragma language_version 0.16;"]
                  [[]; $"export ledger ages: Counter; // persistentHash(x), get_age"]
                  [$"export circuit register(): [] { ages.increment(1); }"]
                  eq_refl eq_refl)).
Defined.

End AgeInstances.

Section UnicodeInstances.
Import Text Re Disclosure.

(** A witness whose name has letters above 127 is recorded under that
    name, its use is found, and the run reports the issue. *)
Lemma accented_witness_recorded :
  find_witness_declarations
    ($"witness g" ++ [233%N] ++ $"t(): Uint<8>;" ++ nl
     ++ $"let h = persistentHash(g" ++ [233%N] ++ $"t());")
  = [($"g" ++ [233%N] ++ $"t", 1%Z, $"Uint<8>")]
  /\ main [$"check-disclosure.py"; $"a.compact"]
          (fun _ => ReadOk
             ($"witness g" ++ [233%N] ++ $"t(): Uint<8>;" ++ nl
              ++ $"let h = persistentHash(g" ++ [233%N] ++ $"t());"))
     = MkOutcome 1
         [low_entropy_issue ($"g" ++ [233%N] ++ $"t") $"Uint<8>" 2].
Proof. vm_compute. split; reflexivity. Qed.

End UnicodeInstances.

(** ** The scan for branches on an accessor *)

Section ControlFlowFacts.
Import Text Re Disclosure.
Context {U : Unicode}.

Lemma nth_enumerate (ls : list str) :
  forall i k l,
    nth_error ls k = Some l ->
    In ((i + Z.of_nat k)%Z, l) (enumerate_from i ls).
Proof.
  induction ls as [|x ls IH]; intros i k l H; [destruct k; discriminate H|].
  cbn [enumerate_from]. destruct k as [|k].
  - injection H as ->. left. rewrite Z.add_0_r. reflexivity.
  - right. replace (i + Z.of_nat (S k))%Z with (i + 1 + Z.of_nat k)%Z by lia.
    apply IH. exact H.
Qed.

Lemma rmatch_Bnd {A : Type} (prev : option char) (s : str) (caps : captures)
    (k : option char -> str -> captures -> option A) :
  rmatch Bnd prev s caps k
  = if xorb (wordy prev) (wordy (hd_error s)) then k prev s caps else None.
Proof. reflexivity. Qed.

(** What the pattern of the scan needs on a line. *)
Lemma control_flow_needs (l : str) :
  found control_flow_pattern l = true ->
  exists pre blanks mid name gap post,
    l = pre ++ $"if" ++ blanks ++ mid ++ $"get_" ++ name ++ gap ++ $"()"
        ++ post
    /\ blanks <> [] /\ forallb is_space blanks = true
    /\ ~ In newline mid
    /\ wordy (last_char None (pre ++ $"if" ++ blanks ++ mid)) = false
    /\ name <> [] /\ forallb is_word name = true
    /\ forallb is_space gap = true.
Proof.
  intros H. apply found_iff in H. destruct H as (pre & suf & -> & H).
  unfold match_at in H.
  match type of H with
  | ?t <> None => destruct t as [m|] eqn:E; [clear H | congruence]
  end.
  unfold control_flow_pattern in E. cbn [Cat] in E.
  rewrite rmatch_Seq in E. apply literal_sound in E.
  destruct E as (s1 & -> & E).
  rewrite rmatch_Seq in E. unfold Space at 1 in E. apply plus_cls_sound in E.
  destruct E as (blanks & s2 & Hb & Hbs & -> & E).
  rewrite rmatch_Seq in E. unfold Dot in E. rewrite rmatch_Star in E.
  apply star_cls_sound in E. destruct E as (mid & s3 & -> & Hmid & E).
  rewrite rmatch_Seq, rmatch_Bnd in E.
  match type of E with
  | (if ?b then _ else _) = _ => destruct b eqn:B; [|discriminate E]
  end.
  rewrite rmatch_Seq in E. apply literal_sound in E.
  destruct E as (s4 & -> & E).
  rewrite rmatch_Seq in E. unfold Word in E. apply plus_cls_sound in E.
  destruct E as (name & s5 & Hn & Hnw & -> & E).
  rewrite rmatch_Seq in E. unfold Space in E. rewrite rmatch_Star in E.
  apply star_cls_sound in E. destruct E as (gap & s6 & -> & Hg & E).
  apply literal_sound in E. destruct E as (post & -> & _).
  exists pre, blanks, mid, name, gap, post.
  split; [rewrite <- ?app_assoc; reflexivity|].
  split; [exact Hb|]. split; [exact Hbs|]. split.
  { intros Hin. rewrite forallb_forall in Hmid. specialize (Hmid _ Hin).
    rewrite N.eqb_refl in Hmid. discriminate Hmid. }
  split.
  { change (wordy (hd_error ($"get_" ++ name ++ gap ++ $"()" ++ post)))
      with true in B.
    rewrite xorb_true_r in B. apply negb_true_iff in B.
    rewrite !last_char_app. exact B. }
  split; [exact Hn|]. split; [exact Hnw | exact Hg].
Qed.

(** X21: the scan for branches on an accessor reports a line once at
    most, in the order of the file, and exactly the lines the pattern is
    found on.  On such a line stand [if], one blank or more, any text
    without a line break, then, not right after a word character, [get_]
    with one word character or more, blanks or none, and [()]. *)
Theorem X21_branch_scan (lines : list str) :
  increasing (map line (control_flow_issues lines))
  /\ (forall n,
        In (control_flow_issue n) (control_flow_issues lines)
        <-> exists l,
              (1 <= n)%Z /\ nth_error lines (Z.to_nat (n - 1)) = Some l
              /\ found control_flow_pattern l = true)
  /\ forall l,
       found control_flow_pattern l = false
       \/ exists pre blanks mid name gap post,
            l = pre ++ $"if" ++ blanks ++ mid ++ $"get_" ++ name ++ gap
                ++ $"()" ++ post
            /\ blanks <> [] /\ forallb is_space blanks = true
            /\ ~ In newline mid
            /\ wordy (last_char None (pre ++ $"if" ++ blanks ++ mid)) = false
            /\ name <> [] /\ forallb is_word name = true
            /\ forallb is_space gap = true.
Proof.
  split; [|split].
  - unfold control_flow_issues.
    match goal with
    | |- context [flat_map ?f _] =>
        destruct (enumerate_keys line f) with (ls := lines) (i := 1%Z)
          as [H1 _]
    end.
    + intros il x Hx.
      destruct (found control_flow_pattern (snd il)); [|destruct Hx].
      destruct Hx as [<- | []]. reflexivity.
    + intros il. destruct (found control_flow_pattern (snd il)); simpl; lia.
    + exact H1.
  - intros n. unfold control_flow_issues. rewrite in_flat_map. split.
    + intros ([k l] & Hin & H). cbn [fst snd] in H.
      destruct (found control_flow_pattern l) eqn:F; [|destruct H].
      destruct H as [H | []]. injection H as ->.
      exists l. pose proof (enumerate_range _ _ _ _ Hin).
      split; [lia|]. split; [exact (enumerate_nth _ _ _ _ Hin) | exact F].
    + intros (l & Hn & Hl & F). exists (n, l). cbn [fst snd]. rewrite F.
      split; [|left; reflexivity].
      replace n with (1 + Z.of_nat (Z.to_nat (n - 1)))%Z at 1 by lia.
      apply nth_enumerate. exact Hl.
  - intros l. destruct (found control_flow_pattern l) eqn:F;
      [right; apply control_flow_needs; exact F | left; reflexivity].
Qed.

End ControlFlowFacts.

(** ** The cost model *)

Section CostModel.
Import Text Complexity.
Context {U : Unicode}.
Local Open Scope Z_scope.

Lemma add_term_total (count cost : Z) (item : breakdown_line)
    (acc : Z * list breakdown_line) :
  0 <= count -> (count = 0 -> cost = 0) ->
  fst (add_term count cost item acc) = fst acc + cost.
Proof.
  intros Hc H0. unfold add_term.
  destruct (Z.ltb_spec 0 count); simpl; [reflexivity|].
  rewrite H0 by lia. lia.
Qed.

Lemma estimate_total_ignores_loops (ops : OperationCounts) (loops eqs : Z) :
  fst (estimate_constraints (with_loops_and_equalities ops loops eqs))
  = fst (estimate_constraints ops).
Proof.
  unfold estimate_constraints, with_loops_and_equalities. simpl.
  destruct (1 <? loops); destruct (1 <? loop_iterations ops); reflexivity.
Qed.

(** The total as a sum of six terms. *)
Lemma estimate_total_formula (ops : OperationCounts) :
  counts_nonneg ops ->
  fst (estimate_constraints ops)
  = hash_operations ops * 1000 + sha256_operations ops * 25000
    + ec_operations ops * 7500
    + merkle_proofs ops * charged_depth ops * 1000
    + inequality_comparisons ops * 254 + collection_accesses ops * 254.
Proof.
  intros (Hh & Hs & He & Hm & Hi & Hc).
  unfold estimate_constraints, charged_depth.
  change (cost_of $"persistentHash") with 1000.
  change (cost_of $"sha256") with 25000.
  change (cost_of $"ecMul") with 7500.
  change (cost_of $"merkle_hash_per_level") with 1000.
  change (cost_of $"comparison_inequality") with 254.
  change (cost_of $"map_membership") with 254.
  cbv zeta.
  match goal with
  | |- fst (if ?b then _ else ?acc) = _ =>
      transitivity (fst acc); [destruct b; reflexivity|]
  end.
  rewrite !add_term_total; simpl fst; try assumption; try lia;
    intros ->; lia.
Qed.

(** C3: the estimated total is the sum of the six cost terms, hash calls
    at 1000, SHA-256 calls at 25000, EC multiplications at 7500, Merkle
    proofs at depth times 1000 (depth 20 when the recorded depth is zero),
    inequalities at 254 and collection indexings at 254; the sum of loop
    iterations and the count of equalities have no part in it. *)
Theorem C3_estimated_total (ops : OperationCounts)
    (Hnonneg : counts_nonneg ops) :
  fst (estimate_constraints ops)
  = hash_operations ops * 1000 + sha256_operations ops * 25000
    + ec_operations ops * 7500
    + merkle_proofs ops * charged_depth ops * 1000
    + inequality_comparisons ops * 254 + collection_accesses ops * 254
  /\ forall loops eqs,
       fst (estimate_constraints (with_loops_and_equalities ops loops eqs))
       = fst (estimate_constraints ops).
Proof.
  split; [apply estimate_total_formula; exact Hnonneg|].
  apply estimate_total_ignores_loops.
Qed.

End CostModel.

(** ** Merkle references *)

Section MerkleFacts.
Import Text Re Complexity.
Context {U : Unicode}.
Local Open Scope Z_scope.

Lemma merkle_pattern_parts :
  merkle_pattern
  = Seq (Lit $"MerkleTree") (Seq (Opt (Lit $"Client")) depth_part).
Proof. reflexivity. Qed.

Lemma close_not_digit (y : char) :
  is_digit y = true -> N.eqb (chr ">") y = false.
Proof.
  intros H. destruct (N.eqb (chr ">") y) eqn:E; [|reflexivity].
  apply N.eqb_eq in E. subst y. discriminate H.
Qed.

Lemma depth_part_sound {A : Type} (prev : option char) (s : str)
    (caps : captures) (k : option char -> str -> captures -> option A)
    (x : A) :
  rmatch depth_part prev s caps k = Some x ->
  exists d rest,
    is_depth d /\ s = $"<" ++ d ++ $">" ++ rest
    /\ k (Some (chr ">")) rest ((1%nat, d) :: caps) = Some x.
Proof.
  unfold depth_part. cbn [Cat]. unfold Chr at 1.
  rewrite rmatch_Seq, rmatch_Cls.
  destruct s as [|c s]; [discriminate|].
  destruct (N.eqb (chr "<") c) eqn:Ec; [|discriminate].
  apply N.eqb_eq in Ec. subst c.
  rewrite rmatch_Seq, rmatch_Grp. unfold Plus, Digit.
  rewrite rmatch_Seq, rmatch_Cls.
  destruct s as [|d0 s]; [discriminate|].
  destruct (is_digit d0) eqn:Hd0; [|discriminate].
  rewrite rmatch_Star. intros H.
  apply star_cls_sound in H. destruct H as (d & rest & -> & Hd & H).
  unfold Chr in H. rewrite rmatch_Cls in H.
  destruct rest as [|c rest]; [discriminate|].
  destruct (N.eqb (chr ">") c) eqn:Ec; [|discriminate].
  apply N.eqb_eq in Ec. subst c.
  exists (d0 :: d), rest. split; [|split].
  - split; [discriminate|]. simpl. rewrite Hd0. exact Hd.
  - reflexivity.
  - replace (firstn (length (d0 :: d ++ (chr ">") :: rest)
                     - length ((chr ">") :: rest))
                    (d0 :: d ++ (chr ">") :: rest)) with (d0 :: d) in H.
    + exact H.
    + symmetry. apply (firstn_consumed (d0 :: d) ((chr ">") :: rest)).
Qed.

Lemma depth_part_complete {A : Type} (prev : option char) (d rest : str)
    (caps : captures) (k : option char -> str -> captures -> option A) :
  is_depth d ->
  rmatch depth_part prev ($"<" ++ d ++ $">" ++ rest) caps k
  = k (Some (chr ">")) rest ((1%nat, d) :: caps).
Proof.
  intros [Hne Hd]. destruct d as [|d0 d]; [congruence|].
  simpl in Hd. apply andb_true_iff in Hd. destruct Hd as [Hd0 Hd].
  unfold depth_part. cbn [Cat]. unfold Chr at 1.
  change ($"<" ++ (d0 :: d) ++ $">" ++ rest)
    with ((chr "<") :: d0 :: d ++ (chr ">") :: rest).
  rewrite rmatch_Seq, rmatch_Cls. cbv beta iota. rewrite N.eqb_refl.
  rewrite rmatch_Seq, rmatch_Grp. unfold Plus, Digit.
  rewrite rmatch_Seq, rmatch_Cls. cbv beta iota. rewrite Hd0.
  rewrite rmatch_Star.
  rewrite (star_cls_greedy is_digit _ caps ((chr ">") :: rest)).
  - unfold Chr. rewrite rmatch_Cls. cbv beta iota. rewrite N.eqb_refl.
    change (d0 :: d ++ (chr ">") :: rest)
      with ((d0 :: d) ++ (chr ">") :: rest).
    rewrite (firstn_consumed (d0 :: d) ((chr ">") :: rest)). reflexivity.
  - intros prev' y s' Hy. unfold Chr. rewrite rmatch_Cls. cbv beta iota.
    rewrite (close_not_digit y Hy). reflexivity.
  - intros y rest' E. injection E as <- _. reflexivity.
  - exact Hd.
Qed.

(** The pattern matches at a position exactly the references that start
    there, and its group is the depth. *)
Lemma match_at_merkle_sound (prev : option char) (s : str)
    (m : rmatch_result) :
  match_at merkle_pattern prev s = Some m ->
  exists client d rest,
    is_depth d /\ s = ref_text client d ++ rest
    /\ m = MkMatch (ref_text client d) rest [(1%nat, d)].
Proof.
  unfold match_at. rewrite merkle_pattern_parts, rmatch_Seq. intros H.
  apply literal_sound in H. destruct H as (s1 & -> & H).
  rewrite rmatch_Seq, rmatch_Opt in H.
  match type of H with
  | match ?t with _ => _ end = _ => destruct t as [m0|] eqn:E
  end.
  - injection H as ->. apply literal_sound in E.
    destruct E as (s2 & -> & E). apply depth_part_sound in E.
    destruct E as (d & rest & Hd & -> & E).
    exists true, d, rest. split; [exact Hd|].
    assert (T : $"MerkleTree" ++ $"Client" ++ $"<" ++ d ++ $">" ++ rest
                = ref_text true d ++ rest).
    { unfold ref_text. rewrite <- !app_assoc. reflexivity. }
    split; [exact T|]. rewrite T, firstn_consumed in E. congruence.
  - apply depth_part_sound in H. destruct H as (d & rest & Hd & -> & H).
    exists false, d, rest. split; [exact Hd|].
    assert (T : $"MerkleTree" ++ $"<" ++ d ++ $">" ++ rest
                = ref_text false d ++ rest).
    { unfold ref_text. rewrite <- !app_assoc. reflexivity. }
    split; [exact T|]. rewrite T, firstn_consumed in H. congruence.
Qed.

Lemma match_at_merkle_complete (prev : option char) (client : bool)
    (d rest : str) :
  is_depth d ->
  match_at merkle_pattern prev (ref_text client d ++ rest)
  = Some (MkMatch (ref_text client d) rest [(1%nat, d)]).
Proof.
  intros Hd. unfold match_at.
  rewrite merkle_pattern_parts, rmatch_Seq.
  assert (T : ref_text client d ++ rest
              = $"MerkleTree" ++ (if client then $"Client" else [])
                ++ $"<" ++ d ++ $">" ++ rest).
  { unfold ref_text. rewrite <- !app_assoc. reflexivity. }
  rewrite T at 1. rewrite literal_complete, rmatch_Seq, rmatch_Opt.
  destruct client.
  - rewrite literal_complete, (depth_part_complete _ d rest _ _ Hd).
    rewrite firstn_consumed. reflexivity.
  - change ([] ++ $"<" ++ d ++ $">" ++ rest)
      with ($"<" ++ d ++ $">" ++ rest).
    replace (rmatch (Lit $"Client") (last_char prev $"MerkleTree")
               ($"<" ++ d ++ $">" ++ rest) [] _) with (@None rmatch_result)
      by reflexivity.
    rewrite (depth_part_complete _ d rest _ _ Hd).
    rewrite firstn_consumed. reflexivity.
Qed.

Lemma ref_at_starts_with_M (c : char) (s d : str) :
  ref_at (c :: s) d -> c = (chr "M").
Proof.
  intros (_ & client & rest & H). unfold ref_text in H.
  simpl in H. injection H as -> _. reflexivity.
Qed.

Lemma digits_not_M (d : str) : forallb is_digit d = true -> Forall not_M d.
Proof.
  induction d as [|c d IH]; simpl; intros H; constructor.
  - apply andb_true_iff in H. destruct H as [H _].
    intros ->. discriminate H.
  - apply andb_true_iff in H. destruct H as [_ H]. auto.
Qed.

(** After its first character a reference has no [M]. *)
Lemma ref_text_tail (client : bool) (d : str) :
  forallb is_digit d = true ->
  exists tail, ref_text client d = (chr "M") :: tail /\ Forall not_M tail.
Proof.
  intros Hd. unfold ref_text.
  destruct client.
  - exists ($"erkleTreeClient<" ++ d ++ $">"). split; [reflexivity|].
    apply Forall_app. split.
    + repeat (constructor; [discriminate|]). constructor.
    + apply Forall_app. split; [apply digits_not_M; exact Hd|].
      repeat (constructor; [discriminate|]). constructor.
  - exists ($"erkleTree<" ++ d ++ $">"). split; [reflexivity|].
    apply Forall_app. split.
    + repeat (constructor; [discriminate|]). constructor.
    + apply Forall_app. split; [apply digits_not_M; exact Hd|].
      repeat (constructor; [discriminate|]). constructor.
Qed.

Lemma refs_of_skip_text (w rest : str) (l : list str) :
  Forall not_M w -> refs_of rest l -> refs_of (w ++ rest) l.
Proof.
  induction 1 as [|c w Hc _ IH]; intros H; [exact H|].
  simpl. apply refs_skip; [|auto].
  intros d Hd. apply Hc. eapply ref_at_starts_with_M. exact Hd.
Qed.

(** The scan of a body for the pattern finds the reference at every
    position that has one. *)
Lemma finditer_merkle_refs (fuel : nat) :
  forall (s : str) (prev : option char),
    (length s < fuel)%nat ->
    refs_of s (map (fun m => group 1 (m_caps m))
                   (finditer_from fuel merkle_pattern false prev s)).
Proof.
  induction fuel as [|fuel IH]; intros s prev Hlen; [lia|].
  cbn [finditer_from]. rewrite match_from_free.
  destruct (match_at merkle_pattern prev s) as [m|] eqn:E.
  - destruct (match_at_merkle_sound _ _ _ E)
      as (client & d & rest & Hd & -> & ->).
    destruct (ref_text_tail client d (proj2 Hd)) as (tail & T & HT).
    cbn [m_text m_rest]. rewrite T. cbv iota. rewrite <- T.
    cbn [map m_caps group Nat.eqb]. rewrite T. simpl app.
    apply refs_here.
    + split; [exact Hd|]. exists client, rest. rewrite T. reflexivity.
    + apply refs_of_skip_text; [exact HT|]. apply IH.
      rewrite T in Hlen. simpl in Hlen. rewrite length_app in Hlen. lia.
  - assert (N : forall d, ~ ref_at s d).
    { intros d (Hd & client & rest & ->).
      rewrite (match_at_merkle_complete prev client d rest Hd) in E.
      discriminate E. }
    destruct s as [|c s]; [constructor|].
    apply refs_skip; [exact N|]. apply IH. simpl in Hlen. lia.
Qed.

Lemma merkle_matches_refs (body : str) : refs_of body (merkle_matches body).
Proof.
  unfold merkle_matches, finditer. apply finditer_merkle_refs. lia.
Qed.

End MerkleFacts.

(** ** The conversions of [count_operations] *)

Section CountFacts.
Import Text Re Complexity.
Context {U : Unicode}.
Local Open Scope Z_scope.

Lemma bind_some {A B : Type} (x : option A) (f : A -> option B) (b : B) :
  bind x f = Some b <-> exists a, x = Some a /\ f a = Some b.
Proof.
  destruct x as [a|]; simpl.
  - split; [intros H; exists a; auto | intros (a' & E & H); congruence].
  - split; [discriminate | intros (a' & E & _); discriminate].
Qed.

Lemma bind_none {A B : Type} (x : option A) (f : A -> option B) :
  bind x f = None <-> x = None \/ exists a, x = Some a /\ f a = None.
Proof.
  destruct x as [a|]; simpl.
  - split; [intros H; right; exists a; auto|].
    intros [E | (a' & E & H)]; congruence.
  - split; [auto | reflexivity].
Qed.

(** A list comprehension raises exactly when one of its items does. *)
Lemma traverse_none {A B : Type} (f : A -> option B) (l : list A) :
  traverse f l = None <-> Exists (fun x => f x = None) l.
Proof.
  induction l as [|x l IH]; cbn [traverse].
  - split; [discriminate | intros H; inversion H].
  - destruct (f x) as [y|] eqn:E; cbn [bind].
    + destruct (traverse f l) as [ys|]; cbn [bind].
      * split; [discriminate|]. intros H. inversion H as [? ? Hx|? ? Hl]; subst.
        -- congruence.
        -- apply IH in Hl. discriminate Hl.
      * split; [|reflexivity]. intros _. right. apply IH. reflexivity.
    + split; [|reflexivity]. intros _. left. exact E.
Qed.

Lemma traverse_some {A B : Type} (f : A -> option B) (l : list A) :
  forall ys,
    traverse f l = Some ys -> Forall2 (fun x y => f x = Some y) l ys.
Proof.
  induction l as [|x l IH]; cbn [traverse]; intros ys H.
  - injection H as <-. constructor.
  - destruct (f x) as [y|] eqn:E; cbn [bind] in H; [|discriminate].
    destruct (traverse f l) as [zs|]; cbn [bind] in H; [|discriminate].
    injection H as <-. constructor; [exact E | apply IH; reflexivity].
Qed.

Lemma digit_value_some (c : char) :
  is_digit c = true -> exists v, digit_value c = Some v /\ 0 <= v.
Proof.
  unfold is_digit, digit_value.
  destruct (category_of c) as [|v| | |]; try discriminate.
  intros _. exists (Z.of_N v). split; [reflexivity | lia].
Qed.

Lemma digits_value_some (d : str) :
  forallb is_digit d = true ->
  forall acc, 0 <= acc -> exists v, digits_value acc d = Some v /\ 0 <= v.
Proof.
  induction d as [|c d IH]; intros Hd acc Ha.
  - exists acc. auto.
  - cbn [forallb] in Hd. apply andb_true_iff in Hd. destruct Hd as [Hc Hd].
    destruct (digit_value_some c Hc) as (v & E & Hv).
    cbn [digits_value]. rewrite E. cbn [bind]. apply IH; [exact Hd | lia].
Qed.

(** [int] of a text of digits raises exactly when the text is too long,
    and it gives no negative number. *)
Lemma int_of_depth (d : str) :
  is_depth d ->
  (too_long d = true /\ int_of_digits d = None)
  \/ (too_long d = false /\ exists v, int_of_digits d = Some v /\ 0 <= v).
Proof.
  intros [Hne Hd]. unfold int_of_digits, too_long.
  destruct d as [|c d]; [congruence|].
  destruct (max_str_digits <? length (c :: d))%nat; [left; auto | right].
  split; [reflexivity|]. apply digits_value_some; [exact Hd | lia].
Qed.

Lemma int_of_depth_none (d : str) :
  is_depth d -> (int_of_digits d = None <-> too_long d = true).
Proof.
  intros Hd. destruct (int_of_depth d Hd) as [[T E] | [T (v & E & _)]];
    rewrite T, E; split; congruence.
Qed.

Lemma refs_of_depths (s : str) (l : list str) :
  refs_of s l -> Forall is_depth l.
Proof.
  induction 1 as [|c s d l (Hd & _) _ IH|c s l _ _ IH];
    [constructor | constructor; assumption | exact IH].
Qed.

Lemma merkle_matches_depths (body : str) :
  Forall is_depth (merkle_matches body).
Proof. exact (refs_of_depths _ _ (merkle_matches_refs body)). Qed.

(** The two bounds a match of the loop pattern captures. *)
Lemma loop_groups {A : Type} (prev : option char) (s : str) (caps : captures)
    (k : option char -> str -> captures -> option A) (x : A) :
  rmatch loop_pattern prev s caps k = Some x ->
  exists d1 d2 p rest caps0,
    is_depth d1 /\ is_depth d2
    /\ k p rest ((2%nat, d2) :: (1%nat, d1) :: caps0) = Some x.
Proof.
  unfold loop_pattern. cbn [Cat]. intros H.
  do 6 (rewrite rmatch_Seq in H; apply rmatch_consumes in H;
        destruct H as (? & ? & ? & ? & -> & H & _)).
  rewrite rmatch_Seq, rmatch_Grp in H. unfold Digit in H.
  apply plus_cls_sound in H. destruct H as (d1 & s1 & Hn1 & Hd1 & -> & H).
  rewrite firstn_consumed in H.
  rewrite rmatch_Seq in H. apply literal_sound in H.
  destruct H as (s2 & -> & H).
  rewrite rmatch_Grp in H. apply plus_cls_sound in H.
  destruct H as (d2 & s3 & Hn2 & Hd2 & -> & H).
  rewrite firstn_consumed in H.
  eexists d1, d2, _, s3, _. split; [split; assumption|].
  split; [split; assumption | exact H].
Qed.

Lemma loop_matches_depths (body : str) :
  Forall (fun se : str * str => is_depth (fst se) /\ is_depth (snd se))
         (loop_matches body).
Proof.
  unfold loop_matches. apply Forall_forall. intros se Hse.
  apply in_map_iff in Hse. destruct Hse as (m & <- & Hm).
  unfold finditer in Hm. apply finditer_from_sound in Hm.
  destruct Hm as (adv & prev & s & Hm).
  apply match_from_caps in Hm. destruct Hm as (k & Hm & Hk).
  apply loop_groups in Hm.
  destruct Hm as (d1 & d2 & p & rest & caps0 & H1 & H2 & Hm).
  rewrite (Hk _ _ _ _ Hm). cbn [fst snd group Nat.eqb]. auto.
Qed.

(** The texts handed to [int] are texts of digits. *)
Lemma literals_depths (body : str) : Forall is_depth (literals body).
Proof.
  unfold literals. apply Forall_app. split; [apply merkle_matches_depths|].
  apply Forall_forall. intros d Hd. apply in_flat_map in Hd.
  destruct Hd as (se & Hse & Hd).
  pose proof (loop_matches_depths body) as L. rewrite Forall_forall in L.
  destruct (L se Hse) as [H1 H2].
  destruct Hd as [<- | [<- | []]]; assumption.
Qed.

Lemma max_depth_none (ds : list str) :
  ds <> [] ->
  (max_depth ds = None <-> Exists (fun d => int_of_digits d = None) ds).
Proof.
  intros Hne. unfold max_depth. rewrite bind_none, traverse_none. split.
  - intros [H | (vs & E & H)]; [exact H|].
    destruct vs as [|v vs]; [|discriminate H].
    apply traverse_some in E. inversion E; subst. congruence.
  - intros H. left. exact H.
Qed.

Lemma fold_max_spec (l : list Z) (acc : Z) :
  acc <= fold_left Z.max l acc
  /\ Forall (fun v => v <= fold_left Z.max l acc) l
  /\ (fold_left Z.max l acc = acc \/ In (fold_left Z.max l acc) l).
Proof.
  revert acc; induction l as [|x l IH]; intros acc; cbn [fold_left].
  - repeat split; [lia | constructor | left; reflexivity].
  - destruct (IH (Z.max acc x)) as (H1 & H2 & H3).
    split; [lia|]. split.
    + constructor; [lia | exact H2].
    + destruct H3 as [H3 | H3]; [|right; right; exact H3].
      destruct (Z.max_spec acc x) as [[_ E] | [_ E]].
      * right; left. rewrite H3. symmetry. exact E.
      * left. rewrite H3. exact E.
Qed.

Lemma converted_bound (ds : list str) (ws : list Z) (m : Z) :
  Forall2 (fun d w => int_of_digits d = Some w) ds ws ->
  Forall (fun w => w <= m) ws ->
  Forall (fun d => exists v, int_of_digits d = Some v /\ v <= m) ds.
Proof.
  induction 1 as [|d w ds ws Hd _ IH]; intros A; [constructor|].
  inversion A; subst. constructor; [exists w; auto | auto].
Qed.

Lemma converted_in (ds : list str) (ws : list Z) (m : Z) :
  Forall2 (fun d w => int_of_digits d = Some w) ds ws ->
  In m ws -> In (Some m) (map int_of_digits ds).
Proof.
  induction 1 as [|d w ds ws Hd _ IH]; intros B; [destruct B|].
  cbn [map]. destruct B as [-> | B]; [left; exact Hd | right; auto].
Qed.

(** The depth recorded is the greatest of the depths. *)
Lemma max_depth_spec (ds : list str) (m : Z) :
  max_depth ds = Some m ->
  Forall (fun d => exists v, int_of_digits d = Some v /\ v <= m) ds
  /\ In (Some m) (map int_of_digits ds).
Proof.
  unfold max_depth. intros H. apply bind_some in H.
  destruct H as (vs & E & H). apply traverse_some in E.
  destruct vs as [|v vs]; [discriminate H|]. injection H as <-.
  destruct (fold_max_spec vs v) as (H1 & H2 & H3). split.
  - apply (converted_bound _ _ _ E). constructor; assumption.
  - apply (converted_in _ _ _ E).
    destruct H3 as [H3 | H3]; [left; symmetry; exact H3 | right; exact H3].
Qed.

Lemma add_loops_none (l : list (str * str)) :
  forall acc,
    add_loops acc l = None
    <-> Exists (fun se => int_of_digits (snd se) = None
                          \/ int_of_digits (fst se) = None) l.
Proof.
  induction l as [|[s e] l IH]; intros acc; cbn [add_loops].
  - split; [discriminate | intros H; inversion H].
  - cbn [fst snd].
    destruct (int_of_digits e) as [ve|] eqn:Ee; cbn [bind].
    + destruct (int_of_digits s) as [vs|] eqn:Es; cbn [bind].
      * rewrite IH. split; [intros H; right; exact H|].
        intros H. inversion H as [? ? [X | X]|]; subst;
          cbn [fst snd] in *; [congruence | congruence | assumption].
      * split; [|reflexivity]. intros _. left. right. exact Es.
    + split; [|reflexivity]. intros _. left. left. exact Ee.
Qed.

Lemma existsb_Exists {A : Type} (f : A -> bool) (l : list A) :
  existsb f l = true <-> Exists (fun x => f x = true) l.
Proof.
  rewrite existsb_exists, Exists_exists. reflexivity.
Qed.

Lemma Exists_depths (l : list str) :
  Forall is_depth l ->
  (Exists (fun d => int_of_digits d = None) l
   <-> Exists (fun d => too_long d = true) l).
Proof.
  intros H. rewrite !Exists_exists. rewrite Forall_forall in H. split.
  - intros (d & Hin & E). exists d. split; [exact Hin|].
    apply (int_of_depth_none d (H d Hin)). exact E.
  - intros (d & Hin & E). exists d. split; [exact Hin|].
    apply (int_of_depth_none d (H d Hin)). exact E.
Qed.

(** [count_operations] raises exactly when a depth or a bound is too
    long. *)
Lemma count_operations_none (body : str) :
  count_operations body = None <-> existsb too_long (literals body) = true.
Proof.
  rewrite existsb_Exists. unfold literals. rewrite Exists_app.
  pose proof (merkle_matches_depths body) as M.
  pose proof (loop_matches_depths body) as L.
  assert (EL : add_loops 0 (loop_matches body) = None
               <-> Exists (fun d => too_long d = true)
                     (flat_map (fun se : str * str => [snd se; fst se])
                               (loop_matches body))).
  { rewrite add_loops_none, !Exists_exists. rewrite Forall_forall in L.
    split.
    - intros (se & Hin & H). destruct (L se Hin) as [H1 H2].
      destruct H as [H | H].
      + exists (snd se). split.
        * apply in_flat_map. exists se. split; [exact Hin | left; reflexivity].
        * apply (int_of_depth_none _ H2). exact H.
      + exists (fst se). split.
        * apply in_flat_map. exists se.
          split; [exact Hin | right; left; reflexivity].
        * apply (int_of_depth_none _ H1). exact H.
    - intros (d & Hin & H). apply in_flat_map in Hin.
      destruct Hin as (se & Hin & Hd). exists se. split; [exact Hin|].
      destruct (L se Hin) as [H1 H2].
      destruct Hd as [<- | [<- | []]].
      + left. apply (int_of_depth_none _ H2). exact H.
      + right. apply (int_of_depth_none _ H1). exact H. }
  assert (EM : match merkle_matches body with
               | [] => Some 0
               | _ :: _ => max_depth (merkle_matches body)
               end = None
               <-> Exists (fun d => too_long d = true) (merkle_matches body)).
  { destruct (merkle_matches body) as [|d ds] eqn:E.
    - split; [discriminate | intros H; inversion H].
    - rewrite max_depth_none by discriminate.
      apply Exists_depths. exact M. }
  unfold count_operations. cbv zeta. rewrite bind_none. split.
  - intros [H | (depth & _ & H)].
    + left. apply EM. exact H.
    + right. apply EL. apply bind_none in H.
      destruct H as [H | (loops & _ & H)]; [exact H | discriminate H].
  - intros [H | H].
    + left. apply EM. exact H.
    + destruct (match merkle_matches body with
                | [] => Some 0
                | _ :: _ => max_depth (merkle_matches body)
                end) as [depth|]; [|left; reflexivity].
      right. exists depth. split; [reflexivity|].
      apply bind_none. left. apply EL. exact H.
Qed.

(** The counters [count_operations] returns. *)
Lemma count_operations_some (body : str) (ops : OperationCounts) :
  count_operations body = Some ops ->
  hash_operations ops
  = count_matches (call_pattern $"persistentHash") body
    + count_matches (call_pattern $"persistentCommit") body
    + count_matches (call_pattern $"hash") body
  /\ sha256_operations ops = count_matches (call_pattern $"sha256") body
  /\ ec_operations ops = count_matches (call_pattern $"ecMul") body
  /\ merkle_proofs ops = Z.of_nat (length (merkle_matches body))
  /\ match merkle_matches body with
     | [] => merkle_depth ops = 0
     | _ :: _ => max_depth (merkle_matches body) = Some (merkle_depth ops)
     end
  /\ inequality_comparisons ops = count_matches inequality_pattern body
  /\ equality_comparisons ops = count_matches equality_pattern body
  /\ add_loops 0 (loop_matches body) = Some (loop_iterations ops)
  /\ collection_accesses ops = count_matches index_pattern body.
Proof.
  unfold count_operations. cbv zeta. intros H.
  apply bind_some in H. destruct H as (depth & Ed & H).
  apply bind_some in H. destruct H as (loops & El & H).
  injection H as <-.
  cbn [hash_operations sha256_operations ec_operations merkle_proofs
       merkle_depth inequality_comparisons equality_comparisons
       loop_iterations collection_accesses].
  repeat split; try lia; try exact El.
  - destruct (merkle_matches body); [reflexivity | lia].
  - destruct (merkle_matches body); [congruence | exact Ed].
Qed.

Lemma count_operations_nonneg (body : str) (ops : OperationCounts) :
  count_operations body = Some ops -> counts_nonneg ops.
Proof.
  intros H. apply count_operations_some in H.
  destruct H as (H1 & H2 & H3 & H4 & _ & H6 & _ & _ & H9).
  unfold counts_nonneg. rewrite H1, H2, H3, H4, H6, H9.
  unfold count_matches. repeat split; lia.
Qed.

(** The depth recorded is no negative number. *)
Lemma merkle_depth_nonneg (body : str) (ops : OperationCounts) :
  count_operations body = Some ops -> 0 <= merkle_depth ops.
Proof.
  intros H. apply count_operations_some in H.
  destruct H as (_ & _ & _ & _ & H & _).
  pose proof (merkle_matches_depths body) as D.
  destruct (merkle_matches body) as [|d ds]; [lia|].
  apply max_depth_spec in H. destruct H as [_ H].
  apply in_map_iff in H. destruct H as (x & E & Hx).
  rewrite Forall_forall in D.
  destruct (int_of_depth x (D x Hx)) as [[_ N] | [_ (v & V & Hv)]];
    congruence.
Qed.

End CountFacts.

(** ** Merkle depth and cost *)

Section MerkleCost.
Import Text Re Complexity.
Context {U : Unicode}.
Local Open Scope Z_scope.

Lemma add_term_keeps (count cost : Z) (item x : breakdown_line)
    (acc : Z * list breakdown_line) :
  In x (snd acc) -> In x (snd (add_term count cost item acc)).
Proof.
  unfold add_term. destruct (0 <? count); [|auto].
  simpl. intros H. apply in_or_app. left. exact H.
Qed.

Lemma add_term_adds (count cost : Z) (item : breakdown_line)
    (acc : Z * list breakdown_line) :
  0 < count -> In item (snd (add_term count cost item acc)).
Proof.
  unfold add_term. intros H. apply Z.ltb_lt in H. rewrite H.
  simpl. apply in_or_app. right. left. reflexivity.
Qed.

Lemma merkle_line_charged (ops : OperationCounts) :
  0 < merkle_proofs ops ->
  In (merkle_line ops) (snd (estimate_constraints ops)).
Proof.
  intros H. unfold estimate_constraints. cbv zeta.
  match goal with
  | |- In _ (snd (if ?b then (_, snd ?acc ++ _) else _)) =>
      assert (G : In (merkle_line ops) (snd acc));
      [|destruct b; [simpl; apply in_or_app; left; exact G | exact G]]
  end.
  do 2 apply add_term_keeps. apply add_term_adds. exact H.
Qed.

(** C6, as the code has it.  The references the scan finds are those
    written with a depth in decimal digits, [MerkleTree<d>] or
    [MerkleTreeClient<d>], one for each position of the body where such a
    reference stands.  When one of these depths, or a bound of a loop, has
    more than 4300 digits, [int] raises and nothing is counted.  Otherwise
    each of these references is counted toward the Merkle cost; the depth
    recorded is the greatest of their depths, zero when there are none; and
    when there are some the cost is charged at that depth, or at 20 when it
    is zero. *)
Theorem C6_literal_references_counted (body : str) :
  refs_of body (merkle_matches body)
  /\ ((existsb too_long (literals body) = true
       /\ count_operations body = None)
      \/ (existsb too_long (literals body) = false
          /\ exists ops,
               count_operations body = Some ops
               /\ merkle_proofs ops = Z.of_nat (length (merkle_matches body))
               /\ Forall (fun d => exists v, int_of_digits d = Some v
                                             /\ v <= merkle_depth ops)
                         (merkle_matches body)
               /\ ((merkle_matches body = [] /\ merkle_depth ops = 0)
                   \/ In (Some (merkle_depth ops))
                         (map int_of_digits (merkle_matches body)))
               /\ (merkle_matches body = []
                   \/ In (merkle_line ops) (snd (estimate_constraints ops))))).
Proof.
  split; [apply merkle_matches_refs|].
  destruct (count_operations body) as [ops|] eqn:E.
  - right. split.
    + destruct (existsb too_long (literals body)) eqn:T; [|reflexivity].
      apply count_operations_none in T. congruence.
    + exists ops. split; [reflexivity|].
      destruct (count_operations_some body ops E)
        as (_ & _ & _ & P & D & _).
      split; [exact P|].
      destruct (merkle_matches body) as [|d ds] eqn:M.
      * split; [constructor|]. split; [left; auto | left; reflexivity].
      * destruct (max_depth_spec _ _ D) as [H1 H2].
        split; [exact H1|]. split; [right; exact H2|]. right.
        apply merkle_line_charged. rewrite P. cbn [length]. lia.
  - left. split; [|reflexivity]. apply count_operations_none. exact E.
Qed.

(** ** Angle brackets counted as comparisons *)

Lemma match_at_inequality (prev : option char) (s : str) :
  match_at inequality_pattern prev s
  = match s with
    | [] => None
    | c :: s1 =>
        if bracket c then
          match s1 with
          | e :: s2 =>
              if N.eqb (chr "=") e then Some (MkMatch [c; e] s2 [])
              else Some (MkMatch [c] s1 [])
          | [] => Some (MkMatch [c] [] [])
          end
        else None
    end.
Proof.
  unfold match_at, inequality_pattern. cbn [Cat].
  rewrite rmatch_Seq, rmatch_Cls.
  destruct s as [|c s1]; [reflexivity|]. cbv beta iota.
  change (N.eqb c (chr "<") || N.eqb c (chr ">")) with (bracket c).
  destruct (bracket c); [|reflexivity].
  rewrite rmatch_Opt. unfold Chr. rewrite rmatch_Cls.
  destruct s1 as [|e s2].
  - reflexivity.
  - cbv beta iota. destruct (N.eqb (chr "=") e).
    + change (c :: e :: s2) with ([c; e] ++ s2).
      rewrite firstn_consumed. reflexivity.
    + change (c :: e :: s2) with ([c] ++ e :: s2).
      rewrite firstn_consumed. reflexivity.
Qed.

Lemma equals_not_bracket (e : char) :
  N.eqb (chr "=") e = true -> bracket e = false.
Proof. intros H. apply N.eqb_eq in H. subst e. reflexivity. Qed.

(** The scan for inequalities finds one match for each angle bracket of
    the body, whatever the bracket is for. *)
Lemma finditer_inequality_count (fuel : nat) :
  forall (s : str) (prev : option char),
    (length s < fuel)%nat ->
    length (finditer_from fuel inequality_pattern false prev s)
    = length (filter bracket s).
Proof.
  induction fuel as [|fuel IH]; intros s prev Hlen; [lia|].
  cbn [finditer_from]. rewrite match_from_free, match_at_inequality.
  destruct s as [|c s1]; [reflexivity|]. cbn [filter].
  simpl in Hlen.
  destruct (bracket c).
  - destruct s1 as [|e s2].
    + cbn [m_text m_rest length]. rewrite IH by (simpl; lia). reflexivity.
    + destruct (N.eqb (chr "=") e) eqn:Ee.
      * cbn [m_text m_rest length filter].
        rewrite (equals_not_bracket e Ee).
        rewrite IH by (simpl in Hlen; lia). reflexivity.
      * cbn [m_text m_rest length]. rewrite IH by lia. reflexivity.
  - apply IH. lia.
Qed.

Lemma inequality_count (body : str) :
  count_matches inequality_pattern body
  = Z.of_nat (length (filter bracket body)).
Proof.
  unfold count_matches, finditer.
  rewrite finditer_inequality_count by lia. reflexivity.
Qed.

Lemma refs_of_occurrence (s : str) (l : list str) :
  refs_of s l -> l <> [] ->
  exists pre client d rest, s = pre ++ ref_text client d ++ rest.
Proof.
  induction 1 as [|c s d l (Hd & client & rest & E) _ _|c s l _ _ IH];
    intros Hl.
  - congruence.
  - exists [], client, d, rest. exact E.
  - destruct (IH Hl) as (pre & client & d & rest & ->).
    exists (c :: pre), client, d, rest. reflexivity.
Qed.

Lemma ref_text_brackets (client : bool) (d : str) :
  (2 <= length (filter bracket (ref_text client d)))%nat.
Proof.
  unfold ref_text. rewrite !filter_app, !length_app.
  change (length (filter bracket $"<")) with 1%nat.
  change (length (filter bracket $">")) with 1%nat. lia.
Qed.

(** A body with a counted reference has two inequalities at least. *)
Lemma counted_reference_brackets (body : str) :
  merkle_matches body <> [] ->
  2 <= count_matches inequality_pattern body.
Proof.
  intros H.
  destruct (refs_of_occurrence _ _ (merkle_matches_refs body) H)
    as (pre & client & d & rest & E).
  rewrite inequality_count. rewrite E at 1.
  rewrite !filter_app, !length_app.
  pose proof (ref_text_brackets client d). lia.
Qed.

(** C2: a body whose only text is one reference [MerkleTree<24>] is
    estimated at 24508, not 24000: the two angle brackets of the reference
    are counted as two inequality comparisons of 254 each, on top of the
    Merkle cost of 1 x 24 x 1000.  No body does better: whenever a
    reference is counted, the estimate exceeds the Merkle cost by 508 at
    least. *)
Theorem C2_merkle_reference_estimate :
  count_operations $"{ MerkleTree<24> }"
  = Some (MkOps 0 0 1 24 2 0 0 0 0)
  /\ estimate_constraints (MkOps 0 0 1 24 2 0 0 0 0)
     = (24508, [MerkleLine 24 24000; ComparisonLine 2 508])
  /\ map estimated_constraints
         (analyses (main [$"analyze-complexity.py"; $"tree.compact"]
                         (fun _ => ReadOk
                            $"circuit check(): [] { MerkleTree<24> }")))
     = [24508]
  /\ forall body,
       merkle_matches body = []
       \/ count_operations body = None
       \/ exists ops,
            count_operations body = Some ops
            /\ merkle_proofs ops * charged_depth ops * 1000 + 508
               <= fst (estimate_constraints ops).
Proof.
  split; [vm_compute; reflexivity|].
  split; [vm_compute; reflexivity|].
  split; [vm_compute; reflexivity|].
  intros body. destruct (merkle_matches body) as [|d ds] eqn:E.
  - left. reflexivity.
  - right. destruct (count_operations body) as [ops|] eqn:C.
    + right. exists ops. split; [reflexivity|].
      assert (H2 : 2 <= inequality_comparisons ops).
      { destruct (count_operations_some body ops C)
          as (_ & _ & _ & _ & _ & -> & _).
        apply counted_reference_brackets. rewrite E. discriminate. }
      pose proof (count_operations_nonneg body ops C) as N.
      rewrite (estimate_total_formula _ N).
      destruct N as (Hh & Hs & He & Hm & Hi & Hc). lia.
    + left. reflexivity.
Qed.

End MerkleCost.

Section MerkleInstances.
Import Text Re Complexity.
Local Open Scope Z_scope.

(** A reference whose depth is a name is not counted at all: no Merkle
    proof, no Merkle line in the breakdown, no cost at depth 20. *)
Lemma C6_named_depth_not_counted :
  count_operations $"{ MerkleTree<DEPTH> }"
  = Some (MkOps 0 0 0 0 2 0 0 0 0)
  /\ merkle_proofs (MkOps 0 0 0 0 2 0 0 0 0) = 0
  /\ estimate_constraints (MkOps 0 0 0 0 2 0 0 0 0)
     = (508, [ComparisonLine 2 508])
  /\ fst (estimate_constraints (MkOps 0 0 0 0 2 0 0 0 0)) <> 1 * 20 * 1000.
Proof. vm_compute. repeat split; discriminate. Qed.

End MerkleInstances.

(** ** The exit codes of the analyzer *)

Section AnalyzerFacts.
Import Text Re Complexity.
Context {U : Unicode}.
Local Open Scope Z_scope.

Lemma analyze_none (c : str * Z * str) :
  analyze c = None <-> existsb too_long (literals (snd c)) = true.
Proof.
  destruct c as [[n i] b]. cbn [snd]. rewrite <- count_operations_none.
  unfold analyze. destruct (count_operations b); cbn [bind];
    split; congruence.
Qed.

(** The loop over the circuits raises exactly when the body of one of them
    has a depth or a bound that is too long. *)
Lemma analyses_none (cs : list (str * Z * str)) :
  traverse analyze cs = None
  <-> existsb (fun c => existsb too_long (literals (snd c))) cs = true.
Proof.
  rewrite traverse_none, existsb_Exists, !Exists_exists.
  split; intros (c & Hin & H); exists c; (split; [exact Hin|]);
    apply analyze_none; exact H.
Qed.

(** C5, as the code has it: the exit code of the complexity analyzer.  It
    is 1 when there is no argument or the path does not end in
    [.compact]; otherwise 2 when the file is not found, and 1 on any other
    error of reading it; and when the file is read it is 0, also when no
    circuit is found, unless the body of a circuit has a Merkle depth or a
    loop bound of more than 4300 digits: then [int] raises, nothing
    catches it, and the code is 1. *)
Theorem C5_analyzer_exit_codes (argv : list str) (fs : file_system) :
  exit_code (main argv fs)
  = match argv with
    | _ :: filepath :: _ =>
        if endswith $".compact" filepath then
          match fs filepath with
          | ReadOk content =>
              if existsb (fun c => existsb too_long (literals (snd c)))
                         (find_circuits content)
              then 1 else 0
          | NotFound => 2
          | ReadFailed => 1
          end
        else 1
    | _ => 1
    end.
Proof.
  unfold main, parse_compact_file.
  destruct argv as [|prog [|filepath rest]]; try reflexivity.
  change ((length (prog :: filepath :: rest) <? 2)%nat) with false.
  change (nth 1 (prog :: filepath :: rest) []) with filepath.
  destruct (endswith $".compact" filepath); cbn [negb]; [|reflexivity].
  destruct (fs filepath) as [content| |]; try reflexivity.
  destruct (find_circuits content) as [|c cs]; [reflexivity|].
  destruct (traverse analyze (c :: cs)) as [ans|] eqn:E.
  - destruct (existsb (fun c0 => existsb too_long (literals (snd c0)))
                      (c :: cs)) eqn:T; [|reflexivity].
    apply analyses_none in T. congruence.
  - apply analyses_none in E. rewrite E. reflexivity.
Qed.

End AnalyzerFacts.

Section AnalyzerInstances.
Import Text Re Complexity.
Local Open Scope Z_scope.

(** A read that fails otherwise than by a missing file ends with code 1,
    not 2; and so does a read that succeeds, of a circuit with a depth of
    4301 digits, where the code is not 0. *)
Lemma C5_read_error_exits_1 :
  exit_code (main [$"analyze-complexity.py"; $"contract.compact"]
                  (fun _ => ReadFailed)) = 1
  /\ exit_code (main [$"analyze-complexity.py"; $"contract.compact"]
                     (fun _ => ReadFailed)) <> 2
  /\ exit_code (main [$"analyze-complexity.py"; $"contract.compact"]
                     (fun _ => ReadOk
                        ($"circuit f(): [] { MerkleTree<"
                         ++ repeat (chr "9") 4301 ++ $"> }"))) = 1.
Proof.
  split; [reflexivity|]. split; [discriminate|]. vm_compute. reflexivity.
Qed.

End AnalyzerInstances.

(** ** Counters, estimates and classes *)

Section EstimateFacts.
Import Text Re Complexity.
Context {U : Unicode}.
Local Open Scope Z_scope.

Lemma breakdown_sum_app (a b : list breakdown_line) :
  breakdown_sum (a ++ b) = breakdown_sum a + breakdown_sum b.
Proof.
  unfold breakdown_sum. induction a as [|x a IH]; simpl; [reflexivity|].
  rewrite IH. lia.
Qed.

Lemma add_term_balanced (count cost : Z) (item : breakdown_line)
    (acc : Z * list breakdown_line) :
  line_cost item = cost ->
  fst acc = breakdown_sum (snd acc) ->
  fst (add_term count cost item acc)
  = breakdown_sum (snd (add_term count cost item acc)).
Proof.
  intros Hi Ha. unfold add_term. destruct (0 <? count); [|exact Ha].
  cbn [fst snd]. rewrite breakdown_sum_app, Ha. simpl. lia.
Qed.

(** X8: the costs of the lines of the breakdown add up to the estimated
    total, for all counters; the line of the loops carries no cost. *)
Theorem X8_breakdown_adds_up (ops : OperationCounts) :
  fst (estimate_constraints ops)
  = breakdown_sum (snd (estimate_constraints ops)).
Proof.
  unfold estimate_constraints. cbv zeta.
  match goal with
  | |- fst (if ?b then (fst ?acc, snd ?acc ++ ?l) else ?acc) = _ =>
      assert (G : fst acc = breakdown_sum (snd acc));
      [|destruct b; [cbn [fst snd]; rewrite breakdown_sum_app, G; simpl; lia
                    | exact G]]
  end.
  repeat (apply add_term_balanced; [reflexivity|]). reflexivity.
Qed.

Lemma bracket_count (s : str) :
  Z.of_nat (length (filter bracket s)) = count_char "<" s + count_char ">" s.
Proof.
  unfold count_char. induction s as [|c s IH]; [reflexivity|].
  cbn [filter]. unfold bracket at 1.
  rewrite (N.eqb_sym c (chr "<")), (N.eqb_sym c (chr ">")).
  destruct (N.eqb (chr "<") c) eqn:E1; destruct (N.eqb (chr ">") c) eqn:E2;
    cbn [orb length]; try lia.
  apply N.eqb_eq in E1. apply N.eqb_eq in E2. rewrite <- E1 in E2.
  vm_compute in E2. discriminate E2.
Qed.

(** X9: when [count_operations] returns, its counter of inequality
    comparisons is the number of angle brackets in the body, every [<] and
    every [>], whatever they are for: comparisons, type parameters, shifts
    or arrows. *)
Theorem X9_inequalities_are_angle_brackets (body : str)
    (ops : OperationCounts) (Hops : count_operations body = Some ops) :
  inequality_comparisons ops = count_char "<" body + count_char ">" body.
Proof.
  destruct (count_operations_some body ops Hops)
    as (_ & _ & _ & _ & _ & -> & _).
  rewrite inequality_count. apply bracket_count.
Qed.

Lemma charged_depth_positive (body : str) (ops : OperationCounts) :
  count_operations body = Some ops -> 1 <= charged_depth ops.
Proof.
  intros H. pose proof (merkle_depth_nonneg body ops H) as D.
  unfold charged_depth. destruct (Z.eqb_spec (merkle_depth ops) 0); lia.
Qed.

Lemma estimate_nonneg (body : str) (ops : OperationCounts) :
  count_operations body = Some ops -> 0 <= fst (estimate_constraints ops).
Proof.
  intros H. pose proof (count_operations_nonneg body ops H) as N.
  pose proof (charged_depth_positive body ops H) as C.
  rewrite (estimate_total_formula _ N).
  destruct N as (Hh & Hs & He & Hm & Hi & Hc). nia.
Qed.

(** X10: whatever the body, when [count_operations] returns, the counters
    that are charged and the depth recorded are not negative, and neither
    is the estimate; the depth charged is 1 at least. *)
Theorem X10_estimate_not_negative (body : str) (ops : OperationCounts)
    (Hops : count_operations body = Some ops) :
  counts_nonneg ops
  /\ 0 <= merkle_depth ops
  /\ 1 <= charged_depth ops
  /\ 0 <= fst (estimate_constraints ops).
Proof.
  pose proof (count_operations_nonneg body ops Hops) as N.
  pose proof (merkle_depth_nonneg body ops Hops) as D.
  assert (C : 1 <= charged_depth ops).
  { unfold charged_depth. destruct (Z.eqb_spec (merkle_depth ops) 0); lia. }
  split; [exact N|]. split; [exact D|]. split; [exact C|].
  rewrite (estimate_total_formula _ N).
  destruct N as (Hh & Hs & He & Hm & Hi & Hc). nia.
Qed.

Lemma classify_cases (t : Z) :
  class_rank (classify_complexity t)
  = if t <? 1000 then 0
    else if t <? 10000 then 1
    else if t <? 50000 then 2 else 3.
Proof.
  unfold classify_complexity.
  destruct (t <? 1000); [reflexivity|].
  destruct (t <? 10000); [reflexivity|].
  destruct (t <? 50000); reflexivity.
Qed.

Lemma class_rank_mono (a b : Z) :
  a <= b ->
  class_rank (classify_complexity a) <= class_rank (classify_complexity b).
Proof.
  intros Hle. rewrite !classify_cases.
  repeat match goal with
         | |- context [?x <? ?y] => destruct (Z.ltb_spec x y)
         end; lia.
Qed.

(** X11: the class of complexity never goes down when the total goes up:
    low below 1000, then medium below 10000, then high below 50000, then
    very high. *)
Theorem X11_class_grows_with_total (a b : Z) (Hle : a <= b) :
  class_rank (classify_complexity a) <= class_rank (classify_complexity b).
Proof.
  rewrite !classify_cases.
  repeat match goal with
         | |- context [?x <? ?y] => destruct (Z.ltb_spec x y)
         end; lia.
Qed.

(** X12: a body with a call of SHA-256, when [count_operations] returns,
    gets the advice to replace it, an estimate of 25000 at least and with
    it the class high or very high. *)
Theorem X12_sha256_means_high (body : str) (ops : OperationCounts)
    (Hops : count_operations body = Some ops)
    (Hsha : 0 < sha256_operations ops) :
  In ReplaceSha256 (suggest_optimizations ops body)
  /\ 25000 <= fst (estimate_constraints ops)
  /\ 2 <= class_rank (classify_complexity (fst (estimate_constraints ops))).
Proof.
  assert (E : 25000 <= fst (estimate_constraints ops)).
  { pose proof (count_operations_nonneg body ops Hops) as N.
    pose proof (merkle_depth_nonneg body ops Hops) as D.
    assert (C : 1 <= charged_depth ops).
    { unfold charged_depth.
      destruct (Z.eqb_spec (merkle_depth ops) 0); lia. }
    rewrite (estimate_total_formula _ N).
    destruct N as (Hh & Hs & He & Hm & Hi & Hc). nia. }
  split; [|split; [exact E|]].
  - unfold suggest_optimizations. apply Z.ltb_lt in Hsha. rewrite Hsha.
    left. reflexivity.
  - rewrite classify_cases.
    repeat match goal with
           | |- context [?x <? ?y] => destruct (Z.ltb_spec x y)
           end; lia.
Qed.

Lemma sum_dominates {X : Type} (f : X -> Z) (l : list X) :
  forall acc,
    0 <= acc -> Forall (fun a => 0 <= f a) l ->
    acc <= fold_left (fun t a => t + f a) l acc
    /\ Forall (fun a => f a <= fold_left (fun t a => t + f a) l acc) l.
Proof.
  induction l as [|x l IH]; intros acc Ha Hl.
  - simpl. split; [lia | constructor].
  - inversion Hl as [|? ? Hx Hl']; subst. cbn [fold_left].
    destruct (IH (acc + f x)) as [H1 H2]; [lia | exact Hl'|].
    split; [lia|]. constructor; [lia | exact H2].
Qed.

Lemma analyze_some (c : str * Z * str) (a : CircuitAnalysis) :
  analyze c = Some a ->
  (name a, line a) = fst c /\ 0 <= estimated_constraints a.
Proof.
  destruct c as [[n i] b]. unfold analyze. intros H.
  apply bind_some in H. destruct H as (ops & E & H). injection H as <-.
  cbn [name line fst estimated_constraints]. split; [reflexivity|].
  exact (estimate_nonneg b ops E).
Qed.

Lemma analyses_some (cs : list (str * Z * str)) :
  forall ans,
    traverse analyze cs = Some ans ->
    map (fun a => (name a, line a)) ans = map fst cs
    /\ Forall (fun a => 0 <= estimated_constraints a) ans.
Proof.
  intros ans H. apply traverse_some in H.
  induction H as [|c a cs ans Ha _ [IH1 IH2]]; [split; [reflexivity|constructor]|].
  destruct (analyze_some c a Ha) as [E N].
  cbn [map]. rewrite E, IH1. split; [reflexivity|].
  constructor; assumption.
Qed.

(** X19: after a successful read, either the body of some circuit has a
    depth or a bound that is too long, and the run ends with code 1, no
    analysis and no overall class; or the analyzer exits with 0 and
    reports one analysis for each circuit, with its name and line, in
    their order: when there are circuits, the overall total is the sum of
    their estimates, no estimate exceeds it, and the overall class is at
    least the class of each circuit by itself; when there are none, no
    overall class is reported. *)
Theorem X19_overall_class_dominates (prog filepath content : str)
    (fs : file_system)
    (Hext : endswith $".compact" filepath = true)
    (Hread : fs filepath = ReadOk content) :
  (existsb (fun c => existsb too_long (literals (snd c)))
           (find_circuits content) = true
   /\ exit_code (main [prog; filepath] fs) = 1
   /\ analyses (main [prog; filepath] fs) = []
   /\ overall (main [prog; filepath] fs) = None)
  \/ (exists ans,
        traverse analyze (find_circuits content) = Some ans
        /\ exit_code (main [prog; filepath] fs) = 0
        /\ analyses (main [prog; filepath] fs) = ans
        /\ map (fun a => (name a, line a)) ans
           = map fst (find_circuits content)
        /\ ((find_circuits content = []
             /\ overall (main [prog; filepath] fs) = None)
            \/ exists total,
                 overall (main [prog; filepath] fs)
                 = Some (classify_complexity total, total)
                 /\ total = fold_left (fun t a => t + estimated_constraints a)
                                      ans 0
                 /\ Forall (fun a =>
                              estimated_constraints a <= total
                              /\ class_rank (classify_complexity
                                               (estimated_constraints a))
                                 <= class_rank (classify_complexity total))
                           ans)).
Proof.
  unfold main, parse_compact_file.
  change ((length [prog; filepath] <? 2)%nat) with false.
  change (nth 1 [prog; filepath] []) with filepath.
  rewrite Hext, Hread. cbn [negb].
  destruct (find_circuits content) as [|c cs] eqn:E.
  - right. exists []. repeat split. left. split; reflexivity.
  - destruct (traverse analyze (c :: cs)) as [ans|] eqn:T.
    + right. exists ans. split; [reflexivity|].
      cbn [exit_code analyses overall].
      destruct (analyses_some _ _ T) as [Hn Hp].
      split; [reflexivity|]. split; [reflexivity|]. split; [exact Hn|].
      right. eexists. split; [reflexivity|]. split; [reflexivity|].
      destruct (sum_dominates estimated_constraints ans 0)
        as [_ H]; [lia | exact Hp|].
      eapply Forall_impl; [|exact H]. intros a Ha. cbv beta in Ha |- *.
      split; [exact Ha | apply class_rank_mono; exact Ha].
    + left. apply analyses_none in T. rewrite T. repeat split.
Qed.

Lemma in_suggestions (ops : OperationCounts) (body : str) (d : Z) :
  In (ShallowerMerkleTree d) (suggest_optimizations ops body)
  <-> d = merkle_depth ops /\ 20 < d.
Proof.
  unfold suggest_optimizations. rewrite !in_app_iff. split.
  - intros [H | [H | [H | [H | H]]]];
      match type of H with
      | In _ (if ?b then _ else _) =>
          destruct b eqn:E; [destruct H as [H | []] | destruct H]
      end; try discriminate H.
    injection H as <-. split; [reflexivity|]. apply Z.ltb_lt. exact E.
  - intros [-> H]. right; right; right; left.
    apply Z.ltb_lt in H. rewrite H. left. reflexivity.
Qed.

(** X20: when [count_operations] returns, the advice on deep Merkle trees
    is given exactly when the depth recorded for the body exceeds 20, and
    the depth it names is the depth written in one of the references
    counted in the body. *)
Theorem X20_deep_tree_advice (body : str) (ops : OperationCounts) (d : Z)
    (Hops : count_operations body = Some ops) :
  In (ShallowerMerkleTree d) (suggest_optimizations ops body)
  <-> d = merkle_depth ops /\ 20 < d
      /\ In (Some d) (map int_of_digits (merkle_matches body)).
Proof.
  rewrite in_suggestions. split.
  - intros [-> H]. split; [reflexivity|]. split; [exact H|].
    destruct (count_operations_some body ops Hops)
      as (_ & _ & _ & _ & D & _).
    destruct (merkle_matches body) as [|x xs]; [lia|].
    apply max_depth_spec. exact D.
  - intros (E & H & _). auto.
Qed.

End EstimateFacts.

Section EstimateInstances.
Import Text Re Complexity.
Local Open Scope Z_scope.

Lemma C3_estimated_total_witness :
  exists ops,
    count_operations $"{ sha256(x); hash(y); }" = Some ops
    /\ fst (estimate_constraints ops) = 26000.
Proof.
  exists (MkOps 1 1 0 0 0 0 0 0 0). split; [vm_compute; reflexivity|].
  destruct (C3_estimated_total (MkOps 1 1 0 0 0 0 0 0 0)) as [H _].
  - exact (count_operations_nonneg $"{ sha256(x); hash(y); }" _ eq_refl).
  - rewrite H. vm_compute. reflexivity.
Defined.

Lemma X9_inequalities_are_angle_brackets_witness :
  exists ops,
    count_operations $"{ assert(a <= b); return x >> 2; }" = Some ops
    /\ inequality_comparisons ops = 3.
Proof.
  exists (MkOps 0 0 0 0 3 0 0 0 0). split; [vm_compute; reflexivity|].
  rewrite (X9_inequalities_are_angle_brackets
             $"{ assert(a <= b); return x >> 2; }" _ eq_refl).
  vm_compute. reflexivity.
Defined.

Lemma X10_estimate_not_negative_witness :
  exists ops,
    count_operations $"{ for i in 9..2 { t = MerkleTree<0>; } }" = Some ops
    /\ loop_iterations ops = -7
    /\ 1 <= charged_depth ops
    /\ 0 <= fst (estimate_constraints ops).
Proof.
  exists (MkOps 0 0 1 0 2 0 (-7) 0 0). split; [vm_compute; reflexivity|].
  split; [reflexivity|].
  apply (X10_estimate_not_negative
           $"{ for i in 9..2 { t = MerkleTree<0>; } }" _ eq_refl).
Defined.

Lemma X11_class_grows_with_total_witness :
  class_rank (classify_complexity 999)
  <= class_rank (classify_complexity 1000).
Proof. apply X11_class_grows_with_total. lia. Defined.

Lemma X12_sha256_means_high_witness :
  exists ops,
    count_operations $"{ return sha256(x); }" = Some ops
    /\ 2 <= class_rank (classify_complexity (fst (estimate_constraints ops))).
Proof.
  exists (MkOps 0 1 0 0 0 0 0 0 0). split; [vm_compute; reflexivity|].
  apply (X12_sha256_means_high $"{ return sha256(x); }" _ eq_refl).
  reflexivity.
Defined.

Lemma X19_overall_class_dominates_witness :
  overall (main [$"analyze-complexity.py"; $"two.compact"]
                (fun _ => ReadOk
                   ($"circuit a(): [] { return sha256(x); }" ++ nl
                    ++ $"circuit b(): [] { return hash(y); }")))
  = Some ($"High", 26000).
Proof.
  destruct (X19_overall_class_dominates $"analyze-complexity.py"
              $"two.compact"
              ($"circuit a(): [] { return sha256(x); }" ++ nl
               ++ $"circuit b(): [] { return hash(y); }")
              (fun _ => ReadOk _) eq_refl eq_refl) as [[H _] | _].
  - vm_compute in H. discriminate H.
  - vm_compute. reflexivity.
Defined.

Lemma X20_deep_tree_advice_witness :
  exists ops,
    count_operations $"{ a: MerkleTree<32>; b: MerkleTreeClient<8>; }"
    = Some ops
    /\ In (ShallowerMerkleTree 32)
          (suggest_optimizations ops
             $"{ a: MerkleTree<32>; b: MerkleTreeClient<8>; }").
Proof.
  exists (MkOps 0 0 2 32 4 0 0 0 0). split; [vm_compute; reflexivity|].
  apply (X20_deep_tree_advice
           $"{ a: MerkleTree<32>; b: MerkleTreeClient<8>; }" _ 32 eq_refl).
  split; [reflexivity|]. split; [reflexivity|]. vm_compute. auto.
Defined.

End EstimateInstances.

(** ** The extraction of circuits *)

Section CircuitFacts.
Import Text Re Complexity.
Context {U : Unicode}.
Local Open Scope Z_scope.

Lemma take_body_spec (lines : list str) (brace_count : Z) :
  lines = fst (take_body lines brace_count)
          ++ snd (take_body lines brace_count)
  /\ stays_open (fst (take_body lines brace_count)) brace_count
  /\ (snd (take_body lines brace_count) = []
      \/ brace_count + total_balance (fst (take_body lines brace_count))
         <= 0).
Proof.
  revert brace_count; induction lines as [|l lines IH]; intros n.
  - simpl. repeat split. left. reflexivity.
  - cbn [take_body]. destruct (Z.ltb_spec 0 n) as [Hn | Hn].
    + destruct (IH (n + brace_balance l)) as (E & O & R).
      destruct (take_body lines (n + brace_balance l)) as [body rest].
      cbn [fst snd] in *. split; [rewrite E at 1; reflexivity|].
      split; [split; assumption|].
      destruct R as [R | R]; [left; exact R | right].
      cbn [total_balance fold_right]. fold (total_balance body). lia.
    + cbn [fst snd]. split; [reflexivity|]. split; [exact I|].
      right. cbn [total_balance fold_right]. lia.
Qed.

(** X13: the inner loop of the extraction splits the lines in two without
    losing any: the body is a run of lines before each of which the count
    of open braces is positive, and either no line is left or the count
    has come down to zero or below. *)
Theorem X13_take_body_splits (lines : list str) (brace_count : Z) :
  lines = fst (take_body lines brace_count)
          ++ snd (take_body lines brace_count)
  /\ stays_open (fst (take_body lines brace_count)) brace_count
  /\ (snd (take_body lines brace_count) = []
      \/ brace_count + total_balance (fst (take_body lines brace_count))
         <= 0).
Proof. exact (take_body_spec lines brace_count). Qed.

Lemma take_body_all (lines : list str) :
  forall n, stays_open lines n -> take_body lines n = (lines, []).
Proof.
  induction lines as [|l lines IH]; intros n H; [reflexivity|].
  destruct H as [Hn H]. cbn [take_body].
  apply Z.ltb_lt in Hn. rewrite Hn, (IH _ H). reflexivity.
Qed.

(** X14: when the braces a circuit opens are never all closed, its body
    runs to the end of the file: every line after the first is taken into
    it, and the extraction reports this one circuit and none of those that
    may follow. *)
Theorem X14_unclosed_circuit_takes_the_rest (fuel : nat) (l : str)
    (lines : list str) (i : Z) (start : nat) (m : rmatch_result)
    (Hmatch : search circuit_pattern l = Some (start, m))
    (Hopen : stays_open lines (brace_balance l)) :
  find_circuits_from (S fuel) (l :: lines) i
  = [(group 1 (m_caps m), i + 1,
      join_lines (skipn (start + length (m_text m) - 1) l :: lines))].
Proof.
  cbn [find_circuits_from]. rewrite Hmatch.
  rewrite (take_body_all lines _ Hopen).
  destruct fuel; reflexivity.
Qed.

(** The circuits found from a position on start on lines after it, within
    the lines, and their start lines go up. *)
Lemma find_circuits_from_lines (fuel : nat) :
  forall (lines : list str) (i : Z),
    Forall (fun z => i + 1 <= z <= i + Z.of_nat (length lines))
           (map start_line (find_circuits_from fuel lines i))
    /\ increasing (map start_line (find_circuits_from fuel lines i)).
Proof.
  induction fuel as [|fuel IH]; intros lines i.
  - simpl. split; constructor.
  - destruct lines as [|l lines]; [simpl; split; constructor|].
    cbn [find_circuits_from].
    destruct (search circuit_pattern l) as [[start m]|].
    + pose proof (take_body_spec lines (brace_balance l)) as (E & _).
      destruct (take_body lines (brace_balance l)) as [body rest].
      cbn [fst snd] in E.
      destruct (IH rest (i + 1 + Z.of_nat (length body))) as [R I'].
      cbn [map start_line fst snd].
      assert (L : Z.of_nat (length (l :: lines))
                  = 1 + Z.of_nat (length body) + Z.of_nat (length rest)).
      { cbn [length]. rewrite E at 1. rewrite length_app. lia. }
      split.
      * constructor; [lia|].
        eapply Forall_impl; [|exact R]. intros z Hz. cbv beta in Hz |- *.
        lia.
      * cbn [increasing]. split; [|exact I'].
        destruct (map start_line
                      (find_circuits_from fuel rest
                         (i + 1 + Z.of_nat (length body)))) as [|z zs];
          [exact I|].
        inversion R as [|? ? Hz ?]; subst. cbv beta in Hz. lia.
    + destruct (IH lines (i + 1)) as [R I']. split; [|exact I'].
      eapply Forall_impl; [|exact R]. intros z Hz. cbv beta in Hz |- *.
      cbn [length]. lia.
Qed.

(** The outer loop needs no more turns than there are lines. *)
Lemma find_circuits_from_fuel (fuel1 : nat) :
  forall (fuel2 : nat) (lines : list str) (i : Z),
    (length lines <= fuel1)%nat -> (length lines <= fuel2)%nat ->
    find_circuits_from fuel1 lines i = find_circuits_from fuel2 lines i.
Proof.
  induction fuel1 as [|fuel1 IH]; intros fuel2 lines i H1 H2.
  - destruct lines; [|simpl in H1; lia]. destruct fuel2; reflexivity.
  - destruct lines as [|l lines]; [destruct fuel2; reflexivity|].
    destruct fuel2 as [|fuel2]; [simpl in H2; lia|].
    cbn [find_circuits_from]. cbn [length] in H1, H2.
    destruct (search circuit_pattern l) as [[start m]|].
    + pose proof (take_body_spec lines (brace_balance l)) as (E & _).
      destruct (take_body lines (brace_balance l)) as [body rest].
      cbn [fst snd] in E.
      assert (L : (length rest <= length lines)%nat).
      { rewrite E, length_app. lia. }
      rewrite (IH fuel2 rest _); [reflexivity | lia | lia].
    + rewrite (IH fuel2 lines _); [reflexivity | lia | lia].
Qed.

(** X15: the circuits are reported in the order of the file: their start
    lines are line numbers of the file, from 1 to the number of lines,
    and go up strictly; and the number of lines is turns enough for the
    loop, more change nothing. *)
Theorem X15_circuits_in_file_order (content : str) :
  Forall (fun z => 1 <= z <= Z.of_nat (length (split_lines content)))
         (map start_line (find_circuits content))
  /\ increasing (map start_line (find_circuits content))
  /\ forall extra,
       find_circuits_from (length (split_lines content) + extra)
                          (split_lines content) 0
       = find_circuits content.
Proof.
  unfold find_circuits. cbv zeta.
  destruct (find_circuits_from_lines (length (split_lines content))
              (split_lines content) 0) as [R I'].
  split; [|split; [exact I'|]].
  - eapply Forall_impl; [|exact R]. intros z Hz. cbv beta in Hz |- *. lia.
  - intros extra. apply find_circuits_from_fuel; lia.
Qed.

Lemma rmatch_ends_in {A : Type} (c : char) (r : regex) :
  ends_in c r ->
  forall prev s caps (k : option char -> str -> captures -> option A) x,
    rmatch r prev s caps k = Some x ->
    exists w rest prev' caps',
      s = (w ++ [c]) ++ rest /\ k prev' rest caps' = Some x.
Proof.
  induction 1 as [|a b _ IH]; intros prev s caps k x H.
  - unfold Chr in H. rewrite rmatch_Cls in H.
    destruct s as [|y s]; [discriminate|].
    destruct (N.eqb c y) eqn:E; [|discriminate].
    apply N.eqb_eq in E. subst y.
    exists [], s, (Some c), caps. auto.
  - rewrite rmatch_Seq in H. apply rmatch_consumes in H.
    destruct H as (w1 & r1 & p1 & c1 & -> & H & _).
    destruct (IH _ _ _ _ _ H) as (w2 & r2 & p2 & c2 & -> & H2).
    exists (w1 ++ w2), r2, p2, c2. split; [|exact H2].
    rewrite <- !app_assoc. reflexivity.
Qed.

Lemma circuit_pattern_parts :
  circuit_pattern
  = Seq (Opt (Cat [Lit $"export"; Plus Space]))
        (Seq (Lit $"circuit")
             (Seq (Plus Space) (Seq (Grp 1 (Plus Word)) circuit_tail))).
Proof. reflexivity. Qed.

Lemma circuit_pattern_ends : ends_in "{" circuit_pattern.
Proof.
  unfold circuit_pattern. cbn [Cat]. repeat constructor.
Qed.

(** The name a match of the circuit pattern captures, and its last
    character. *)
Lemma circuit_match_shape (prev : option char) (s : str)
    (m : rmatch_result) :
  match_at circuit_pattern prev s = Some m ->
  is_identifier (group 1 (m_caps m))
  /\ exists w, m_text m = w ++ [(chr "{")].
Proof.
  intros H. split.
  - unfold match_at in H. rewrite circuit_pattern_parts, rmatch_Seq in H.
    apply rmatch_consumes in H.
    destruct H as (w0 & s0 & p0 & c0 & -> & H & _).
    rewrite rmatch_Seq in H. apply rmatch_consumes in H.
    destruct H as (w1 & s1 & p1 & c1 & -> & H & _).
    rewrite rmatch_Seq in H. apply rmatch_consumes in H.
    destruct H as (w2 & s2 & p2 & c2 & -> & H & _).
    rewrite rmatch_Seq, rmatch_Grp in H. unfold Word in H.
    apply plus_cls_sound in H.
    destruct H as (name & s3 & Hne & Hw & -> & H).
    rewrite firstn_consumed in H. apply rmatch_consumes in H.
    destruct H as (w4 & s4 & p4 & c4 & -> & H & G).
    injection H as <-. cbn [m_caps]. rewrite G.
    + cbn [group Nat.eqb]. split; assumption.
    + simpl. tauto.
  - unfold match_at in H.
    apply (rmatch_ends_in "{" _ circuit_pattern_ends) in H.
    destruct H as (w & rest & p & c & -> & H).
    rewrite firstn_consumed in H. injection H as <-. exists w. reflexivity.
Qed.

Lemma skipn_to_brace (pre w rest : str) :
  skipn (0 + length pre + length (w ++ [(chr "{")]) - 1)
        (pre ++ (w ++ [(chr "{")]) ++ rest)
  = (chr "{") :: rest.
Proof.
  rewrite length_app. cbn [length].
  replace (0 + length pre + (length w + 1) - 1)%nat
    with (length (pre ++ w) + 0)%nat by (rewrite length_app; lia).
  replace (pre ++ (w ++ [(chr "{")]) ++ rest)
    with ((pre ++ w) ++ (chr "{") :: rest)
    by (rewrite <- !app_assoc; reflexivity).
  rewrite skipn_app, Nat.add_0_r, skipn_all, Nat.sub_diag. reflexivity.
Qed.

Lemma join_lines_head (c : char) (l : str) (ls : list str) :
  exists t, join_lines ((c :: l) :: ls) = c :: t.
Proof.
  destruct ls as [|x ls]; [exists l; reflexivity|].
  exists (l ++ newline :: join_lines (x :: ls)). reflexivity.
Qed.

Lemma find_circuits_from_shape (fuel : nat) :
  forall (lines : list str) (i : Z),
    Forall (fun c : str * Z * str =>
              is_identifier (fst (fst c))
              /\ exists t, snd c = (chr "{") :: t)
           (find_circuits_from fuel lines i).
Proof.
  induction fuel as [|fuel IH]; intros lines i; [constructor|].
  destruct lines as [|l lines]; [constructor|].
  cbn [find_circuits_from].
  destruct (search circuit_pattern l) as [[start m]|] eqn:E; [|apply IH].
  destruct (take_body lines (brace_balance l)) as [body rest].
  constructor; [|apply IH]. cbn [fst snd].
  unfold search in E. apply search_from_sound in E.
  destruct E as (pre & El & -> & M).
  destruct (circuit_match_shape _ _ _ M) as [Hid (w & Hw)].
  split; [exact Hid|].
  rewrite El, Hw, skipn_to_brace.
  apply join_lines_head.
Qed.

(** X16: every circuit the extraction reports has an identifier for a
    name, and a body that starts with the opening brace of the
    definition. *)
Theorem X16_circuits_named_and_braced (content : str) :
  Forall (fun c : str * Z * str =>
            is_identifier (fst (fst c))
            /\ exists t, snd c = (chr "{") :: t)
         (find_circuits content).
Proof. apply find_circuits_from_shape. Qed.

End CircuitFacts.

Section CircuitInstances.
Import Text Re Complexity.
Local Open Scope Z_scope.

Lemma X14_unclosed_circuit_takes_the_rest_witness :
  map start_line
      (find_circuits
         ($"circuit a(): [] {" ++ nl ++ $"  if (x) {" ++ nl
          ++ $"}" ++ nl ++ $"circuit b(): [] { }"))
  = [1].
Proof.
  unfold find_circuits.
  match goal with
  | |- context [find_circuits_from ?n ?ls ?i] =>
      let ls' := eval vm_compute in ls in
      let n' := eval vm_compute in n in
      change (find_circuits_from n ls i) with (find_circuits_from n' ls' i)
  end.
  match goal with
  | |- context [find_circuits_from (S ?f) (?l :: ?ls) ?i] =>
      let r := eval vm_compute in (search circuit_pattern l) in
      match r with
      | Some (?st, ?m) =>
          rewrite (X14_unclosed_circuit_takes_the_rest f l ls i st m)
      end
  end.
  - reflexivity.
  - vm_compute. reflexivity.
  - vm_compute. repeat split.
Defined.

End CircuitInstances.

Section UnicodeCircuits.
Import Text Re Complexity.
Local Open Scope Z_scope.

(** A circuit whose name has a letter above 127 is found under that name,
    and a depth written in Arabic-Indic digits is read as the number it
    writes. *)
Lemma accented_circuit_found :
  find_circuits ($"circuit g" ++ [233%N] ++ $"t(): [] { }")
  = [($"g" ++ [233%N] ++ $"t", 1, $"{ }")]
  /\ count_operations ($"{ MerkleTree<" ++ [1634%N; 1636%N] ++ $"> }")
     = Some (MkOps 0 0 1 24 2 0 0 0 0).
Proof. vm_compute. split; reflexivity. Qed.

End UnicodeCircuits.
